(** * goodbye: exit handlers run once, in priority order

    A shallow embedding of the Go package [goodbye] (goodbye.go together
    with the platform files goodbye_unix.go and goodbye_windows.go).

    - Go's [int] is modelled as [Z]; the package only compares and sorts
      integers, so no arithmetic can overflow.
    - A Go map is a [gmap], wrapped in [option] because the package
      assigns [nil] to a map variable: reading a nil map behaves like
      reading an empty one, writing to it panics.
    - An [os.Signal] interface value is a [Signal]: the nil interface, a
      [syscall.Signal] number, or the package's own [noSig] struct.
    - An exit handler is a value of an abstract type [H]; calling it is
      recorded as an [invocation] in a trace.  A [context.Context] is a
      value of an abstract type [Ctx] that is only passed through. *)

From stdpp Require Import gmap list sorting strings.

Local Open Scope Z_scope.

(** ** Values *)

(** The dynamic values an [os.Signal] variable can hold. *)
Inductive Signal : Type :=
  | nilSignal
  | sysSignal (n : Z)
  | noSig.

#[global] Instance Signal_eq_dec : EqDecision Signal.
Proof. solve_decision. Defined.

Definition Signal_encode (s : Signal) : option (option Z) :=
  match s with
  | nilSignal => None
  | sysSignal n => Some (Some n)
  | noSig => Some None
  end.

Definition Signal_decode (o : option (option Z)) : Signal :=
  match o with
  | None => nilSignal
  | Some (Some n) => sysSignal n
  | Some None => noSig
  end.

#[global] Instance Signal_countable : Countable Signal.
Proof.
  apply (inj_countable' Signal_encode Signal_decode).
  intros []; reflexivity.
Defined.

(** [var noSigVal noSig] *)
Definition noSigVal : Signal := noSig.

(** Interface comparison [a == b]: equal dynamic types and equal values.
    Every dynamic type of the model is comparable, so it never panics. *)
Definition Signal_eqb (a b : Signal) : bool := bool_decide (a = b).

(** [func IsNormalExit(sig os.Signal) bool { return sig == noSigVal }] *)
Definition IsNormalExit (sig : Signal) : bool := Signal_eqb sig noSigVal.

(** The dynamic values of the [interface{}] entries given to [Notify]:
    a [syscall.Signal], the package's [noSig], an [int], or anything else
    (the nil interface, a string, an [int64], ...). *)
Inductive value : Type :=
  | VSys (n : Z)
  | VNoSig
  | VInt (n : Z)
  | VOther (description : string).

(** The type-switch case [case os.Signal]: the value implements the
    interface.  The nil interface matches no case. *)
Definition as_Signal (v : value) : option Signal :=
  match v with
  | VSys n => Some (sysSignal n)
  | VNoSig => Some noSig
  | VInt _ | VOther _ => None
  end.

(** The type-switch case [case int]. *)
Definition as_int (v : value) : option Z :=
  match v with
  | VInt n => Some n
  | VSys _ | VNoSig | VOther _ => None
  end.

(** Outcome of a call that may panic. *)
Inductive result (A : Type) : Type :=
  | Ok (a : A)
  | Panic (msg : string).
Arguments Ok {A} a.
Arguments Panic {A} msg.

(** ** Go maps *)

Section GoMap.
Context {K : Type} `{Countable K} {V : Type}.

(** [v, ok := m[k]]: a nil map reads as empty. *)
Definition go_index (m : option (gmap K V)) (k : K) : option V :=
  match m with
  | None => None
  | Some g => g !! k
  end.

(** [m[k] = v]: panics on a nil map. *)
Definition go_assign (m : option (gmap K V)) (k : K) (v : V)
  : result (option (gmap K V)) :=
  match m with
  | None => Panic "assignment to entry in nil map"
  | Some g => Ok (Some (<[k := v]> g))
  end.

(** The keys of a map, in the order of stdpp's [elements].  A Go [range]
    loop visits them in an unspecified order: any permutation of this
    list ([range_order]). *)
Definition go_keys (m : option (gmap K V)) : list K :=
  match m with
  | None => []
  | Some g => elements (dom g)
  end.

Definition range_order (m : option (gmap K V)) (ks : list K) : Prop :=
  ks ≡ₚ go_keys m.

End GoMap.

(** [sort.Ints]: sorts a slice of ints in increasing order. *)
Definition sort_Ints (keys : list Z) : list Z := merge_sort Z.le keys.

(** ** The package *)

Section Goodbye.
Variable H : Type.
Variable Ctx : Type.

(** One call [h(ctx, s)] of an exit handler. *)
Record invocation : Type := Invoke {
  inv_handler : H;
  inv_ctx : Ctx;
  inv_signal : Signal
}.

(** The package-level variables that the sequential functions use,
    and the set of signal numbers that os/signal currently relays. *)
Record pkg : Type := Pkg {
  ExitCode : Z;
  handlers : option (gmap Z (list H));
  notified : list Signal;
  relayed : gset Z
}.

(** [handlers = map[int][]ExitHandler{}], [ExitCode] and [notified] at
    their zero values, nothing relayed. *)
Definition pkg_init : pkg :=
  {| ExitCode := 0; handlers := Some ∅; notified := []; relayed := ∅ |}.

Definition set_handlers (st : pkg) (m : option (gmap Z (list H))) : pkg :=
  {| ExitCode := ExitCode st; handlers := m;
     notified := notified st; relayed := relayed st |}.

Definition set_relayed (st : pkg) (r : gset Z) : pkg :=
  {| ExitCode := ExitCode st; handlers := handlers st;
     notified := notified st; relayed := r |}.

(** [RegisterWithPriority]:
<<
    if a, ok := handlers[priority]; !ok {
        handlers[priority] = []ExitHandler{f}
    } else {
        handlers[priority] = append(a, f)
    }
>> *)
Definition RegisterWithPriority (f : H) (priority : Z) (st : pkg)
  : result pkg :=
  let bucket :=
    match go_index (handlers st) priority with
    | None => [f]
    | Some a => a ++ [f]
    end in
  match go_assign (handlers st) priority bucket with
  | Ok m => Ok (set_handlers st m)
  | Panic msg => Panic msg
  end.

(** [func Register(f ExitHandler) { RegisterWithPriority(f, 0) }] *)
Definition Register (f : H) (st : pkg) : result pkg :=
  RegisterWithPriority f 0 st.

(** A sequence of registrations, stopping at the first panic. *)
Fixpoint register_all (regs : list (H * Z)) (st : pkg) : result pkg :=
  match regs with
  | [] => Ok st
  | (f, p) :: regs' =>
      match RegisterWithPriority f p st with
      | Ok st' => register_all regs' st'
      | Panic msg => Panic msg
      end
  end.

(** [handle]: collect the keys of [handlers] (in the order [ks] in which
    the [range] loop happens to visit them), sort them, and call every
    handler of every bucket. *)
Definition handle_with (ks : list Z) (ctx : Ctx) (s : Signal) (st : pkg)
  : list invocation :=
  let keys := sort_Ints ks in
  k ← keys;
  h ← default [] (go_index (handlers st) k);
  [Invoke h ctx s].

Definition handle (ctx : Ctx) (s : Signal) (st : pkg) : list invocation :=
  handle_with (go_keys (handlers st)) ctx s st.

(** The handlers in the order in which [handle_with] calls them, each
    with the key of its bucket. *)
Definition drain_with (ks : list Z) (st : pkg) : list (H * Z) :=
  k ← sort_Ints ks;
  (λ h, (h, k)) <$> default [] (go_index (handlers st) k).

(** *** Notify and Reset *)

(** The numbers of the signals of both platform files
    ([os.Interrupt] is [syscall.SIGINT]). *)
Definition SIGHUP : Signal := sysSignal 1.
Definition SIGINT : Signal := sysSignal 2.
Definition SIGQUIT : Signal := sysSignal 3.
Definition SIGKILL : Signal := sysSignal 9.
Definition SIGTERM : Signal := sysSignal 15.

(** [defaultSignals], as [init] sets it on either platform. *)
Definition defaultSignals : gmap Signal Z :=
  <[SIGKILL := 1]> (<[SIGHUP := 0]> (<[SIGINT := 0]>
    (<[SIGQUIT := 0]> (<[SIGTERM := 0]> ∅)))).

(** One iteration of the loop over the variadic arguments; the state of
    the loop is the variable [s] and the map [sigs]:
<<
    switch tv := v.(type) {
    case os.Signal:
        s = tv
        sigs[s] = 0
    case int:
        sigs[s] = tv
    }
>> *)
Definition Notify_entry (acc : Signal * gmap Signal Z) (v : value)
  : Signal * gmap Signal Z :=
  let '(s, sigs) := acc in
  match as_Signal v with
  | Some tv => (tv, <[tv := 0]> sigs)
  | None =>
      match as_int v with
      | Some tv => (s, <[s := tv]> sigs)
      | None => (s, sigs)
      end
  end.

(** The loop, from [var s os.Signal] (nil) and an empty map. *)
Definition Notify_loop (signals : list value) : Signal * gmap Signal Z :=
  foldl Notify_entry (nilSignal, ∅) signals.

(** The map [sigs] that [Notify] resolves its arguments to. *)
Definition Notify_sigs (signals : list value) : gmap Signal Z :=
  match signals with
  | [] => defaultSignals
  | _ :: _ => (Notify_loop signals).2
  end.

(** os/signal, as its documentation describes it.  [signum] is the
    number of a signal, or -1 for a value that is not a valid
    [syscall.Signal]. *)
Definition numSig : Z := 65.

Definition signum (s : Signal) : Z :=
  match s with
  | sysSignal n => if bool_decide (0 ≤ n < numSig) then n else -1
  | nilSignal | noSig => -1
  end.

Definition all_signals : gset Z := list_to_set (seqZ 0 numSig).

Definition signums (sigs : list Signal) : gset Z :=
  list_to_set (filter (λ n, 0 ≤ n) (signum <$> sigs)).

(** [signal.Notify(c, sigs...)]: relay the given signals; all signals
    when none is given. *)
Definition signal_Notify (sigs : list Signal) (r : gset Z) : gset Z :=
  match sigs with
  | [] => all_signals
  | _ :: _ => r ∪ signums sigs
  end.

(** [signal.Reset(sigs...)]: undo every [signal.Notify] for the given
    signals; for all signals when none is given. *)
Definition signal_Reset (sigs : list Signal) (r : gset Z) : gset Z :=
  match sigs with
  | [] => ∅
  | _ :: _ => r ∖ signums sigs
  end.

(** What the goroutine started by [Notify] keeps: the context and the
    resolved map. *)
Record listener : Type := Listener {
  l_ctx : Ctx;
  l_sigs : gmap Signal Z
}.

(** [Notify].  The slice it fills with the keys of [sigs] is declared in
    the function's own [var ( ... notified = make(...) )] block: a local
    variable, so the package-level [notified] is left as it was. *)
Definition Notify (ctx : Ctx) (signals : list value) (st : pkg)
  : pkg * listener :=
  let sigs := Notify_sigs signals in
  let notified_local := go_keys (Some sigs) in
  (set_relayed st (signal_Notify notified_local (relayed st)),
   Listener ctx sigs).

(** [Reset]:
<<
    signal.Reset(notified...)
    handlers = nil
>> *)
Definition Reset (st : pkg) : pkg :=
  {| ExitCode := ExitCode st;
     handlers := None;
     notified := notified st;
     relayed := signal_Reset (notified st) (relayed st) |}.

(** *** Exit, the listener and the gate

    Goroutines run interleaved.  Each one executes a list of calls, one
    after the other: [Exit(ctx, exitCode)], or the body of the listener's
    loop for one received signal.  The registry does not change while
    they run. *)
Inductive call : Type :=
  | CallExit (ctx : Ctx) (exitCode : Z)
  | CallDeliver (l : listener) (s : Signal).

(** Where a goroutine stands inside the call it is executing.
    [from_Exit] says that the frame below [handleOnce] is [Exit], whose
    deferred [lock.Unlock()] runs when it returns. *)
Inductive pc : Type :=
  | Idle
  | ExitLocked (ctx : Ctx) (exitCode : Z)
  | OnceEnter (ctx : Ctx) (s : Signal) (x : Z) (from_Exit : bool)
  | OnceSlow (ctx : Ctx) (s : Signal) (x : Z) (from_Exit : bool)
  | InHandle (rest : list invocation) (x : Z).

Record thread : Type := Thread {
  t_prog : list call;
  t_ip : nat;
  t_pc : pc
}.

(** The process: the package state, the goroutines, the mutex [lock],
    the mutex and the flag of [once], the handler calls made so far and
    the status given to [os.Exit].  [c_claims] is a ghost log of the
    entries into the function passed to [once.Do]: goroutine, signal
    and code. *)
Record config : Type := Config {
  c_pkg : pkg;
  c_threads : list thread;
  c_lock : bool;
  c_once_m : bool;
  c_once_done : bool;
  c_claims : list (nat * Signal * Z);
  c_trace : list invocation;
  c_exited : option Z
}.

Definition spawn (prog : list call) : thread :=
  {| t_prog := prog; t_ip := 0; t_pc := Idle |}.

Definition config_init (st : pkg) (progs : list (list call)) : config :=
  {| c_pkg := st; c_threads := spawn <$> progs;
     c_lock := false; c_once_m := false; c_once_done := false;
     c_claims := []; c_trace := []; c_exited := None |}.

Definition set_pc (th : thread) (p : pc) : thread :=
  {| t_prog := t_prog th; t_ip := t_ip th; t_pc := p |}.

Definition begin_call (th : thread) (p : pc) : thread :=
  {| t_prog := t_prog th; t_ip := S (t_ip th); t_pc := p |}.

Definition upd_thread (t : nat) (th : thread) (c : config) : config :=
  {| c_pkg := c_pkg c; c_threads := <[t := th]> (c_threads c);
     c_lock := c_lock c; c_once_m := c_once_m c;
     c_once_done := c_once_done c; c_claims := c_claims c;
     c_trace := c_trace c; c_exited := c_exited c |}.

Definition set_lock (b : bool) (c : config) : config :=
  {| c_pkg := c_pkg c; c_threads := c_threads c;
     c_lock := b; c_once_m := c_once_m c;
     c_once_done := c_once_done c; c_claims := c_claims c;
     c_trace := c_trace c; c_exited := c_exited c |}.

(** [handleOnce] returns without having run the function: the goroutine
    is idle again, after the deferred [lock.Unlock()] of [Exit]. *)
Definition return_from_handleOnce (t : nat) (th : thread)
  (from_Exit : bool) (c : config) : config :=
  upd_thread t (set_pc th Idle)
    (if from_Exit then set_lock false c else c).

(** [once.Do] enters the function: the mutex of [once] is taken and
    [handle] starts on the sorted keys. *)
Definition enter_once (t : nat) (th : thread) (ctx : Ctx) (s : Signal)
  (x : Z) (c : config) : config :=
  {| c_pkg := c_pkg c;
     c_threads := <[t := set_pc th (InHandle (handle ctx s (c_pkg c)) x)]>
                    (c_threads c);
     c_lock := c_lock c; c_once_m := true;
     c_once_done := c_once_done c;
     c_claims := c_claims c ++ [(t, s, x)];
     c_trace := c_trace c; c_exited := c_exited c |}.

Definition call_handler (t : nat) (th : thread) (i : invocation)
  (rest : list invocation) (x : Z) (c : config) : config :=
  {| c_pkg := c_pkg c;
     c_threads := <[t := set_pc th (InHandle rest x)]> (c_threads c);
     c_lock := c_lock c; c_once_m := c_once_m c;
     c_once_done := c_once_done c; c_claims := c_claims c;
     c_trace := c_trace c ++ [i]; c_exited := c_exited c |}.

Definition os_Exit (x : Z) (c : config) : config :=
  {| c_pkg := c_pkg c; c_threads := c_threads c;
     c_lock := c_lock c; c_once_m := c_once_m c;
     c_once_done := c_once_done c; c_claims := c_claims c;
     c_trace := c_trace c; c_exited := Some x |}.

(** One step of goroutine [t]; [None] when it cannot move: it has
    finished, it waits for a mutex, or the process has exited.

    [once.Do(f)] is [if done == 0 { doSlow(f) }], and [doSlow] is
    [m.Lock(); defer m.Unlock(); if done == 0 { defer done = 1; f() }].
    Here [f] ends in [os.Exit], which does not run deferred calls: the
    flag is never stored and the mutex of [once] is never released. *)
Definition step (t : nat) (c : config) : option config :=
  match c_exited c with
  | Some _ => None
  | None =>
      th ← c_threads c !! t;
      match t_pc th with
      | Idle =>
          match t_prog th !! t_ip th with
          | None => None
          | Some (CallExit ctx exitCode) =>
              if c_lock c then None
              else Some (upd_thread t (begin_call th (ExitLocked ctx exitCode))
                           (set_lock true c))
          | Some (CallDeliver l s) =>
              match l_sigs l !! s with
              | None => Some (upd_thread t (begin_call th Idle) c)
              | Some x =>
                  Some (upd_thread t
                          (begin_call th (OnceEnter (l_ctx l) s x false)) c)
              end
          end
      | ExitLocked ctx exitCode =>
          let exitCode' :=
            if bool_decide (exitCode < 0) then ExitCode (c_pkg c)
            else exitCode in
          Some (upd_thread t (set_pc th (OnceEnter ctx noSigVal exitCode' true)) c)
      | OnceEnter ctx s x from_Exit =>
          if c_once_done c then Some (return_from_handleOnce t th from_Exit c)
          else Some (upd_thread t (set_pc th (OnceSlow ctx s x from_Exit)) c)
      | OnceSlow ctx s x from_Exit =>
          if c_once_m c then None
          else if c_once_done c
               then Some (return_from_handleOnce t th from_Exit c)
               else Some (enter_once t th ctx s x c)
      | InHandle (i :: rest) x => Some (call_handler t th i rest x c)
      | InHandle [] x => Some (os_Exit x c)
      end
  end.

(** Run a schedule: the goroutine named next takes a step if it can. *)
Fixpoint run (schedule : list nat) (c : config) : config :=
  match schedule with
  | [] => c
  | t :: schedule' => run schedule' (default c (step t c))
  end.

(** Some goroutine moves. *)
Definition steps (c c' : config) : Prop := ∃ t, step t c = Some c'.

(** No goroutine can move. *)
Definition stuck (c : config) : Prop := ∀ t, step t c = None.

(** What a call hands to [handleOnce], if it gets that far. *)
Definition supplied (st : pkg) (cl : call) : option (Ctx * Signal * Z) :=
  match cl with
  | CallExit ctx exitCode =>
      Some (ctx, noSigVal,
            if bool_decide (exitCode < 0) then ExitCode st else exitCode)
  | CallDeliver l s => (λ x, (l_ctx l, s, x)) <$> l_sigs l !! s
  end.

(** The number of calls of its program that have returned. *)
Definition returned_calls (th : thread) : nat :=
  match t_pc th with
  | Idle => t_ip th
  | _ => pred (t_ip th)
  end.

(** Goroutine [t], scheduled on its own from [c], gets a call to
    return: no other goroutine has to move first. *)
Definition returns_promptly (t : nat) (c : config) : Prop :=
  ∃ n th th',
    c_threads c !! t = Some th ∧
    c_threads (run (replicate n t) c) !! t = Some th' ∧
    (returned_calls th < returned_calls th')%nat.

(** *** Invariants of the gate *)

(** The call a goroutine is executing, or has last executed. *)
Definition current_call (th : thread) : option call :=
  match t_ip th with
  | O => None
  | S i => t_prog th !! i
  end.

Definition in_handle (p : pc) : Prop :=
  match p with
  | InHandle _ _ => True
  | _ => False
  end.

(** A goroutine: the calls that have returned did not get to
    [handleOnce], and the frame of [handleOnce] holds what the current
    call supplies. *)
Definition thread_inv (st : pkg) (th : thread) : Prop :=
  (∀ i cl, (i < returned_calls th)%nat → t_prog th !! i = Some cl →
           supplied st cl = None) ∧
  match t_pc th with
  | Idle | InHandle _ _ => True
  | ExitLocked ctx exitCode =>
      current_call th = Some (CallExit ctx exitCode)
  | OnceEnter ctx s x _ | OnceSlow ctx s x _ =>
      ∃ cl, current_call th = Some cl ∧ supplied st cl = Some (ctx, s, x)
  end.

(** The gate: before the function of [once.Do] is entered nothing has
    been called; afterwards the goroutine that entered it is the only
    one inside [handle], and it works through [handle]'s list for the
    signal it came with and exits with the code it came with. *)
Definition claim_inv (st : pkg) (c : config) : Prop :=
  match c_claims c with
  | [] =>
      c_once_m c = false ∧ c_trace c = [] ∧ c_exited c = None ∧
      ∀ t th, c_threads c !! t = Some th → ¬ in_handle (t_pc th)
  | [(w, s, x)] =>
      c_once_m c = true ∧
      (∃ th ctx cl rest,
          c_threads c !! w = Some th ∧ t_pc th = InHandle rest x ∧
          current_call th = Some cl ∧ supplied st cl = Some (ctx, s, x) ∧
          c_trace c ++ rest = handle ctx s st ∧
          (∀ x', c_exited c = Some x' → x' = x ∧ rest = [])) ∧
      ∀ t th, c_threads c !! t = Some th → in_handle (t_pc th) → t = w
  | _ :: _ :: _ => False
  end.

Definition gate_inv (st : pkg) (progs : list (list call)) (c : config)
  : Prop :=
  c_pkg c = st ∧
  t_prog <$> c_threads c = progs ∧
  c_once_done c = false ∧
  (c_lock c = true → ∃ t th, c_threads c !! t = Some th ∧ t_pc th ≠ Idle) ∧
  (∀ t th, c_threads c !! t = Some th → thread_inv st th) ∧
  claim_inv st c.

(** *** A bound on the number of steps *)

(** The number of handlers registered. *)
Definition drain_length (st : pkg) : nat :=
  length (drain_with (go_keys (handlers st)) st).

Definition pc_weight (st : pkg) (p : pc) : nat :=
  match p with
  | Idle => 0
  | ExitLocked _ _ => drain_length st + 4
  | OnceEnter _ _ _ _ => drain_length st + 3
  | OnceSlow _ _ _ _ => drain_length st + 2
  | InHandle rest _ => length rest + 1
  end.

Definition thread_weight (st : pkg) (th : thread) : nat :=
  (length (t_prog th) - t_ip th) * (drain_length st + 5)
  + pc_weight st (t_pc th).

Definition fuel (c : config) : nat :=
  match c_exited c with
  | Some _ => 0
  | None => sum_list (thread_weight (c_pkg c) <$> c_threads c)
  end.

(** *** Sequences of calls of the package's functions

    One goroutine calls the registration functions, [Notify] and
    [Reset], one call after the other; a panic ends the sequence.  The
    goroutine that [Notify] starts is left out here. *)
Inductive op : Type :=
  | OpRegister (f : H)
  | OpRegisterWithPriority (f : H) (priority : Z)
  | OpNotify (ctx : Ctx) (signals : list value)
  | OpReset.

Definition apply_op (o : op) (st : pkg) : result pkg :=
  match o with
  | OpRegister f => Register f st
  | OpRegisterWithPriority f priority => RegisterWithPriority f priority st
  | OpNotify ctx signals => Ok (Notify ctx signals st).1
  | OpReset => Ok (Reset st)
  end.

Fixpoint apply_ops (ops : list op) (st : pkg) : result pkg :=
  match ops with
  | [] => Ok st
  | o :: ops' =>
      match apply_op o st with
      | Ok st' => apply_ops ops' st'
      | Panic msg => Panic msg
      end
  end.

Definition is_registration (o : op) : Prop :=
  match o with
  | OpRegister _ | OpRegisterWithPriority _ _ => True
  | OpNotify _ _ | OpReset => False
  end.

(** *** The goroutines inside Exit *)

Definition is_CallExit (cl : call) : bool :=
  match cl with
  | CallExit _ _ => true
  | CallDeliver _ _ => false
  end.

(** The goroutine is between [lock.Lock()] and the end of [Exit]. *)
Definition in_Exit (th : thread) : bool :=
  match t_pc th with
  | Idle => false
  | ExitLocked _ _ => true
  | OnceEnter _ _ _ from_Exit | OnceSlow _ _ _ from_Exit => from_Exit
  | InHandle _ _ =>
      match current_call th with
      | Some cl => is_CallExit cl
      | None => false
      end
  end.

(** The frame of [handleOnce] knows whether [Exit] called it. *)
Definition frame_knows_caller (th : thread) : Prop :=
  match t_pc th with
  | OnceEnter _ _ _ from_Exit | OnceSlow _ _ _ from_Exit =>
      ∃ cl, current_call th = Some cl ∧ from_Exit = is_CallExit cl
  | _ => True
  end.

(** The mutex [lock] is held exactly while some goroutine is inside
    [Exit], there is at most one such goroutine, and the frames of
    [handleOnce] know whether [Exit] called them. *)
Definition lock_inv (c : config) : Prop :=
  (c_lock c = true ↔ ∃ t th, c_threads c !! t = Some th ∧ in_Exit th = true) ∧
  (∀ t1 t2 th1 th2,
     c_threads c !! t1 = Some th1 → c_threads c !! t2 = Some th2 →
     in_Exit th1 = true → in_Exit th2 = true → t1 = t2) ∧
  (∀ t th, c_threads c !! t = Some th →
     match t_pc th with
     | OnceEnter _ _ _ from_Exit | OnceSlow _ _ _ from_Exit =>
         ∃ cl, current_call th = Some cl ∧ from_Exit = is_CallExit cl
     | _ => True
     end).

End Goodbye.

Arguments Invoke {H Ctx} _ _ _.
Arguments inv_handler {H Ctx} _.
Arguments inv_ctx {H Ctx} _.
Arguments inv_signal {H Ctx} _.
Arguments Pkg {H} _ _ _ _.
Arguments ExitCode {H} _.
Arguments handlers {H} _.
Arguments notified {H} _.
Arguments relayed {H} _.
Arguments pkg_init {H}.
Arguments set_handlers {H} _ _.
Arguments set_relayed {H} _ _.
Arguments RegisterWithPriority {H} _ _ _.
Arguments Register {H} _ _.
Arguments register_all {H} _ _.
Arguments handle_with {H Ctx} _ _ _ _.
Arguments handle {H Ctx} _ _ _.
Arguments drain_with {H} _ _.
Arguments Listener {Ctx} _ _.
Arguments l_ctx {Ctx} _.
Arguments l_sigs {Ctx} _.
Arguments Notify {H Ctx} _ _ _.
Arguments Reset {H} _.
Arguments CallExit {Ctx} _ _.
Arguments CallDeliver {Ctx} _ _.
Arguments Idle {H Ctx}.
Arguments ExitLocked {H Ctx} _ _.
Arguments OnceEnter {H Ctx} _ _ _ _.
Arguments OnceSlow {H Ctx} _ _ _ _.
Arguments InHandle {H Ctx} _ _.
Arguments Thread {H Ctx} _ _ _.
Arguments t_prog {H Ctx} _.
Arguments t_ip {H Ctx} _.
Arguments t_pc {H Ctx} _.
Arguments Config {H Ctx} _ _ _ _ _ _ _ _.
Arguments c_pkg {H Ctx} _.
Arguments c_threads {H Ctx} _.
Arguments c_lock {H Ctx} _.
Arguments c_once_m {H Ctx} _.
Arguments c_once_done {H Ctx} _.
Arguments c_claims {H Ctx} _.
Arguments c_trace {H Ctx} _.
Arguments c_exited {H Ctx} _.
Arguments spawn {H Ctx} _.
Arguments config_init {H Ctx} _ _.
Arguments step {H Ctx} _ _.
Arguments run {H Ctx} _ _.
Arguments steps {H Ctx} _ _.
Arguments stuck {H Ctx} _.
Arguments supplied {H Ctx} _ _.
Arguments current_call {H Ctx} _.
Arguments returned_calls {H Ctx} _.
Arguments returns_promptly {H Ctx} _ _.
Arguments in_handle {H Ctx} _.
Arguments thread_inv {H Ctx} _ _.
Arguments claim_inv {H Ctx} _ _.
Arguments gate_inv {H Ctx} _ _ _.
Arguments drain_length {H} _.
Arguments pc_weight {H Ctx} _ _.
Arguments thread_weight {H Ctx} _ _.
Arguments fuel {H Ctx} _.
Arguments OpRegister {H Ctx} _.
Arguments OpRegisterWithPriority {H Ctx} _ _.
Arguments OpNotify {H Ctx} _ _.
Arguments OpReset {H Ctx}.
Arguments apply_op {H Ctx} _ _.
Arguments apply_ops {H Ctx} _ _.
Arguments is_registration {H Ctx} _.
Arguments is_CallExit {Ctx} _.
Arguments in_Exit {H Ctx} _.
Arguments frame_knows_caller {H Ctx} _.
Arguments lock_inv {H Ctx} _.
Arguments set_pc {H Ctx} _ _.
Arguments begin_call {H Ctx} _ _.
Arguments upd_thread {H Ctx} _ _ _.
Arguments set_lock {H Ctx} _ _.
Arguments return_from_handleOnce {H Ctx} _ _ _ _.
Arguments enter_once {H Ctx} _ _ _ _ _ _.
Arguments call_handler {H Ctx} _ _ _ _ _ _.
Arguments os_Exit {H Ctx} _ _.

(** ** Reading the arguments of Notify

    The words of the documentation, to compare [Notify_loop] with. *)

(** The signal entry that most recently precedes the end of [pre]; the
    nil signal when [pre] holds no signal entry. *)
Definition last_signal (pre : list value) : Signal :=
  default nilSignal (last (omap as_Signal pre)).

(** A signal as a variadic argument.  The nil interface is no signal
    entry. *)
Definition sig_value (s : Signal) : value :=
  match s with
  | sysSignal n => VSys n
  | noSig => VNoSig
  | nilSignal => VOther "nil"
  end.

(** An argument list in which every signal is optionally followed by an
    integer, written as the list of its groups. *)
Definition group_entries (g : Signal * option Z) : list value :=
  sig_value g.1 :: match g.2 with Some n => [VInt n] | None => [] end.

Definition entries (groups : list (Signal * option Z)) : list value :=
  groups ≫= group_entries.

(** The [syscall.Signal] entries of an argument list. *)
Definition listed (signals : list value) : list Signal :=
  omap as_Signal signals.

(** ** The example of the README and some runs of the model *)

Module Scenario.

(** H1 and H2 with priority 0, then H0 with priority -1. *)
Definition registered : result (pkg string) :=
  register_all [("H1", 0); ("H2", 0); ("H0", -1)] pkg_init.

Definition registry : pkg string :=
  match registered with
  | Ok st => st
  | Panic _ => pkg_init
  end.

Definition with_default (d : Z) : pkg string :=
  {| ExitCode := d; handlers := handlers registry;
     notified := notified registry; relayed := relayed registry |}.

Definition round_robin (n : nat) : list nat :=
  mjoin (replicate n [0%nat; 1%nat]).

(** A program that has itself asked os/signal for signal 10 (SIGUSR1 on
    Linux) before it uses the package. *)
Definition with_own_signal : pkg string :=
  set_relayed pkg_init {[10]}.

(** Two goroutines that call [Exit], with codes 3 and 7. *)
Definition two_exits : config string () :=
  config_init registry [[CallExit () 3]; [CallExit () 7]].

(** The first one has entered the function of [once.Do]; the second one
    has not begun its call. *)
Definition claimed : config string () :=
  run [0; 0; 0; 0]%nat two_exits.

(** A listener for SIGINT with code 1, and a goroutine that calls
    [Exit]; the goroutine has entered the function of [once.Do], no
    signal has been handled. *)
Definition sigint_listener : listener () :=
  (Notify () [VSys 2; VInt 1] registry).2.

Definition exit_and_signal : config string () :=
  config_init registry [[CallExit () 0]; [CallDeliver sigint_listener SIGINT]].

Definition claimed_by_exit : config string () :=
  run [0; 0; 0; 0]%nat exit_and_signal.

End Scenario.

Example handle_scenario_A :
  inv_handler <$> handle () noSigVal Scenario.registry = ["H0"; "H1"; "H2"]%string.
Proof. vm_compute. reflexivity. Qed.

Example run_scenario_A :
  let c := run (replicate 10 0%nat)
             (config_init Scenario.registry [[CallExit () 0]]) in
  c_exited c = Some 0 ∧
  c_trace c = [Invoke "H0" () noSig; Invoke "H1" () noSig; Invoke "H2" () noSig]%string.
Proof. vm_compute. split; reflexivity. Qed.

Example run_scenario_B :
  let l := (Notify () [VSys 2; VInt 1] Scenario.registry).2 in
  let c := run (replicate 10 0%nat)
             (config_init Scenario.registry [[CallDeliver l SIGINT]]) in
  c_exited c = Some 1 ∧
  c_trace c = [Invoke "H0" () SIGINT; Invoke "H1" () SIGINT;
               Invoke "H2" () SIGINT]%string ∧
  Forall (λ i, IsNormalExit (inv_signal i) = false) (c_trace c).
Proof. vm_compute. repeat split; repeat constructor. Qed.

Example run_scenario_C :
  let c := run (Scenario.round_robin 10)
             (config_init Scenario.registry [[CallExit () 3]; [CallExit () 7]]) in
  c_exited c = Some 3 ∧ c_claims c = [(0%nat, noSig, 3)] ∧
  length (c_trace c) = 3%nat.
Proof. vm_compute. repeat split; reflexivity. Qed.

Example run_scenario_D :
  c_exited (run (replicate 10 0%nat)
              (config_init (Scenario.with_default 9) [[CallExit () (-1)]]))
  = Some 9.
Proof. vm_compute. reflexivity. Qed.

(** ** Signals *)

Lemma Signal_eqb_eq (a b : Signal) : Signal_eqb a b = true ↔ a = b.
Proof. unfold Signal_eqb. apply bool_decide_eq_true. Qed.

(** C3: [IsNormalExit] answers true for the value [noSigVal] and for no
    other signal value; in particular it answers false for every
    [syscall.Signal]. *)
Theorem IsNormalExit_iff_noSigVal (s : Signal) :
  (IsNormalExit s = true ↔ s = noSigVal) ∧
  (∀ n : Z, IsNormalExit (sysSignal n) = false).
Proof.
  split.
  - apply Signal_eqb_eq.
  - intros n. unfold IsNormalExit. apply not_true_is_false.
    rewrite Signal_eqb_eq. discriminate.
Qed.

(** ** The registry *)

Section Registry.
Context {H : Type}.
Implicit Types (st : pkg H) (f : H) (p : Z) (m : gmap Z (list H)).

Lemma RegisterWithPriority_Some f p st m :
  handlers st = Some m →
  RegisterWithPriority f p st =
    Ok (set_handlers st (Some (<[p := default [] (m !! p) ++ [f]]> m))).
Proof.
  intros Hm. unfold RegisterWithPriority. rewrite Hm. simpl.
  by destruct (m !! p).
Qed.

Lemma RegisterWithPriority_nil f p st :
  handlers st = None →
  RegisterWithPriority f p st = Panic "assignment to entry in nil map".
Proof. intros Hm. unfold RegisterWithPriority. by rewrite Hm. Qed.

(** C5: after [Reset] the map [handlers] is nil, and the assignment in
    [RegisterWithPriority] (and so in [Register]) panics, for every
    handler and priority. *)
Theorem RegisterWithPriority_after_Reset_panics f p st :
  RegisterWithPriority f p (Reset st) = Panic "assignment to entry in nil map" ∧
  Register f (Reset st) = Panic "assignment to entry in nil map".
Proof. split; by apply RegisterWithPriority_nil. Qed.

Lemma handle_with_nil ks (Ctx : Type) (ctx : Ctx) s st :
  handlers st = None → handle_with ks ctx s st = [].
Proof.
  intros Hm. unfold handle_with. rewrite Hm. simpl.
  induction (sort_Ints ks) as [|k l IH]; [done|]. by simpl.
Qed.

(** C9: registering a handler, then [Reset], then the drain: no handler
    is called, in whatever order the [range] loop yields the keys. *)
Theorem Register_Reset_handle_empty f p st :
  is_Some (handlers st) →
  ∃ st', RegisterWithPriority f p st = Ok st' ∧
    (p = 0 → Register f st = Ok st') ∧
    ∀ (Ctx : Type) (ctx : Ctx) (s : Signal) (ks : list Z),
      range_order (handlers (Reset st')) ks →
      handle_with ks ctx s (Reset st') = [] ∧ handle ctx s (Reset st') = [].
Proof.
  intros [m Hm]. eexists. split; [|split].
  - by apply RegisterWithPriority_Some.
  - intros ->. by apply RegisterWithPriority_Some.
  - intros Ctx ctx s ks _. split; by apply handle_with_nil.
Qed.


(** *** The order of the drain *)

Lemma set_handlers_set_handlers st a b :
  set_handlers (set_handlers st a) b = set_handlers st b.
Proof. reflexivity. Qed.

Lemma register_all_buckets regs st m :
  handlers st = Some m →
  ∃ m', register_all regs st = Ok (set_handlers st (Some m')) ∧
    ∀ p, default [] (m' !! p) =
         default [] (m !! p) ++ (filter (λ x, x.2 = p) regs).*1.
Proof.
  revert st m. induction regs as [|[f q] regs IH]; intros st m Hm.
  - exists m. split.
    + simpl. destruct st; simpl in *; by subst.
    + intros p. by rewrite filter_nil, app_nil_r.
  - simpl. rewrite (RegisterWithPriority_Some _ _ _ _ Hm).
    destruct (IH (set_handlers st (Some (<[q:=default [] (m !! q) ++ [f]]> m))) _
                eq_refl) as (m' & Hreg & Hb).
    exists m'. split.
    + by rewrite Hreg, set_handlers_set_handlers.
    + intros p. rewrite Hb. destruct (decide (q = p)) as [->|Hne].
      * rewrite lookup_insert_eq, filter_cons_True by done. simpl.
        by rewrite <- app_assoc.
      * by rewrite lookup_insert_ne, filter_cons_False by done.
Qed.

Lemma handle_with_drain_with ks (Ctx : Type) (ctx : Ctx) s st :
  handle_with ks ctx s st = (λ x, Invoke x.1 ctx s) <$> drain_with ks st.
Proof.
  unfold handle_with, drain_with.
  induction (sort_Ints ks) as [|k l IH]; [done|].
  rewrite !bind_cons, fmap_app, IH. f_equal.
  induction (default [] (go_index (handlers st) k)) as [|h b IHb]; [done|].
  rewrite bind_cons, fmap_cons. simpl. by f_equal.
Qed.

Lemma StronglySorted_buckets (b : Z → list H) (keys : list Z) :
  StronglySorted Z.le keys →
  StronglySorted Z.le ((keys ≫= λ k, (λ h, (h, k)) <$> b k).*2).
Proof.
  induction 1 as [|k keys Hs IH Hall]; [constructor|].
  rewrite bind_cons, fmap_app. apply StronglySorted_app_2; [| |done].
  - intros x1 x2 [[h1 k1] [-> Hin1]]%list_elem_of_fmap
                 [[h2 k2] [-> Hin2]]%list_elem_of_fmap.
    apply list_elem_of_fmap in Hin1 as [? [[= _ ->] _]].
    apply list_elem_of_bind in Hin2 as (k' & Hin2 & Hk').
    apply list_elem_of_fmap in Hin2 as [? [[= _ ->] _]]. simpl.
    rewrite Forall_forall in Hall. by apply Hall.
  - induction (b k) as [|h l IHl]; [constructor|].
    simpl. constructor; [done|].
    apply Forall_forall. intros x [[h' k'] [-> Hin]]%list_elem_of_fmap.
    apply list_elem_of_fmap in Hin as [? [[= _ ->] _]]. simpl. lia.
Qed.

Lemma filter_bucket (b : list H) (k p : Z) :
  filter (λ x : H * Z, x.2 = p) ((λ h, (h, k)) <$> b) =
  if decide (k = p) then (λ h, (h, k)) <$> b else [].
Proof.
  induction b as [|h b IH]; [by destruct (decide (k = p))|].
  rewrite fmap_cons. destruct (decide (k = p)) as [->|Hne].
  - rewrite filter_cons_True by done. by rewrite IH.
  - rewrite filter_cons_False by done. by rewrite IH.
Qed.

Lemma filter_buckets (b : Z → list H) (keys : list Z) (p : Z) :
  NoDup keys →
  filter (λ x : H * Z, x.2 = p) (keys ≫= λ k, (λ h, (h, k)) <$> b k) =
  if decide (p ∈ keys) then (λ h, (h, p)) <$> b p else [].
Proof.
  induction 1 as [|k keys Hk Hnd IH].
  - by rewrite decide_False by apply not_elem_of_nil.
  - rewrite bind_cons, filter_app, filter_bucket, IH.
    destruct (decide (k = p)) as [->|Hne].
    + rewrite decide_False by done. rewrite decide_True by left.
      by rewrite app_nil_r.
    + simpl. destruct (decide (p ∈ keys)) as [Hin|Hnin].
      * by rewrite decide_True by by right.
      * rewrite decide_False; [done|].
        intros [?|?]%elem_of_cons; congruence.
Qed.

Lemma filter_cons_split {A} (P : A → Prop) `{∀ x, Decision (P x)}
    (l : list A) (x : A) (r : list A) :
  filter P l = x :: r →
  ∃ a b, l = a ++ x :: b ∧ filter P a = [] ∧ filter P b = r ∧ P x.
Proof.
  induction l as [|y l IH]; [done|].
  rewrite filter_cons. destruct (decide (P y)) as [Hy|Hy].
  - intros [= -> <-]. by exists [], l.
  - intros (a & b & -> & Ha & Hb & Hx)%IH.
    exists (y :: a), b. by rewrite filter_cons_False.
Qed.

(** Two lists of prioritised handlers that agree at every priority,
    as sequences, hold the same handlers. *)
Lemma filter_priority_Permutation (l1 l2 : list (H * Z)) :
  (∀ p, filter (λ x, x.2 = p) l1 = filter (λ x, x.2 = p) l2) →
  l1 ≡ₚ l2.
Proof.
  revert l2. induction l1 as [|[h q] l1 IH]; intros l2 Heq.
  - destruct l2 as [|[h q] l2]; [done|].
    specialize (Heq q). by rewrite filter_nil, filter_cons_True in Heq.
  - pose proof (Heq q) as Hq. rewrite filter_cons_True in Hq by done.
    symmetry in Hq.
    apply filter_cons_split in Hq as (a & b & -> & Ha & Hb & _).
    rewrite <- Permutation_middle. constructor. apply IH. intros p.
    specialize (Heq p). rewrite filter_app in *.
    destruct (decide (q = p)) as [->|Hne].
    + rewrite !filter_cons_True, Ha in Heq by done. simpl in Heq.
      rewrite Ha. simpl. congruence.
    + by rewrite !filter_cons_False in Heq by done.
Qed.

Lemma retag_filter (regs : list (H * Z)) (p : Z) :
  (λ h, (h, p)) <$> (filter (λ x, x.2 = p) regs).*1 =
  filter (λ x, x.2 = p) regs.
Proof.
  induction regs as [|[f q] regs IH]; [done|].
  destruct (decide (q = p)) as [->|Hne].
  - rewrite filter_cons_True by done. rewrite !fmap_cons. simpl. by rewrite IH.
  - by rewrite filter_cons_False by done.
Qed.

Lemma sort_Ints_Permutation ks : sort_Ints ks ≡ₚ ks.
Proof. apply merge_sort_Permutation. Qed.

Lemma sort_Ints_StronglySorted ks : StronglySorted Z.le (sort_Ints ks).
Proof. apply StronglySorted_merge_sort; apply _. Qed.

(** The sorted keys do not depend on the order in which the [range]
    loop visits the map. *)
Lemma sort_Ints_order_irrelevant ks1 ks2 :
  ks1 ≡ₚ ks2 → sort_Ints ks1 = sort_Ints ks2.
Proof.
  intros Hp. apply (StronglySorted_unique Z.le).
  - apply sort_Ints_StronglySorted.
  - apply sort_Ints_StronglySorted.
  - by rewrite !sort_Ints_Permutation.
Qed.

Lemma handle_with_order_irrelevant ks (Ctx : Type) (ctx : Ctx) s st :
  range_order (handlers st) ks → handle_with ks ctx s st = handle ctx s st.
Proof.
  intros Hp. unfold handle, handle_with.
  by rewrite (sort_Ints_order_irrelevant _ _ Hp).
Qed.

Lemma drain_with_filter ks st m p :
  handlers st = Some m → range_order (handlers st) ks →
  filter (λ x, x.2 = p) (drain_with ks st) =
  (λ h, (h, p)) <$> default [] (m !! p).
Proof.
  intros Hm Hks. unfold drain_with. rewrite Hm in *. simpl in *.
  unfold range_order in Hks. simpl in Hks.
  assert (sort_Ints ks ≡ₚ elements (dom m)) as Hp
    by by rewrite sort_Ints_Permutation.
  rewrite filter_buckets.
  - destruct (decide (p ∈ sort_Ints ks)) as [Hin|Hnin]; [done|].
    rewrite Hp, elem_of_elements, elem_of_dom in Hnin.
    destruct (m !! p) eqn:E; [|done]. by destruct Hnin.
  - rewrite Hp. apply NoDup_elements.
Qed.

(** C2: after any sequence [regs] of registrations into the empty
    registry, the drain calls exactly the registered handlers, in
    ascending order of priority, and the handlers of one priority in the
    order of their registration - in whatever order the [range] loop
    yields the keys. *)
Theorem handle_priority_then_registration_order
    (regs : list (H * Z)) st (Ctx : Type) (ctx : Ctx) (s : Signal) :
  handlers st = Some ∅ →
  ∃ st', register_all regs st = Ok st' ∧
    ∀ ks, range_order (handlers st') ks →
    ∃ called : list (H * Z),
      handle_with ks ctx s st' = (λ x, Invoke x.1 ctx s) <$> called ∧
      called ≡ₚ regs ∧
      StronglySorted Z.le called.*2 ∧
      ∀ p, filter (λ x, x.2 = p) called = filter (λ x, x.2 = p) regs.
Proof.
  intros Hm.
  destruct (register_all_buckets regs st ∅ Hm) as (m' & Hreg & Hb).
  eexists. split; [exact Hreg|]. intros ks Hks.
  exists (drain_with ks (set_handlers st (Some m'))).
  assert (∀ p, filter (λ x, x.2 = p) (drain_with ks (set_handlers st (Some m')))
               = filter (λ x, x.2 = p) regs) as Hfilter.
  { intros p. rewrite (drain_with_filter _ _ m') by done.
    rewrite Hb, lookup_empty. simpl.
    apply retag_filter. }
  split; [apply handle_with_drain_with|].
  split; [by apply filter_priority_Permutation|].
  split; [|done].
  apply StronglySorted_buckets, sort_Ints_StronglySorted.
Qed.

End Registry.

(** ** The arguments of Notify *)

Lemma as_Signal_sig_value (s : Signal) :
  s ≠ nilSignal → as_Signal (sig_value s) = Some s.
Proof. by destruct s. Qed.

Lemma as_Signal_as_int (v : value) (s : Signal) :
  as_Signal v = Some s → as_int v = None.
Proof. by destruct v. Qed.

Lemma last_signal_snoc_Signal (pre : list value) (v : value) (s : Signal) :
  as_Signal v = Some s → last_signal (pre ++ [v]) = s.
Proof.
  intros Hv. unfold last_signal. rewrite omap_app. simpl. rewrite Hv.
  by rewrite last_snoc.
Qed.

Lemma last_signal_snoc_other (pre : list value) (v : value) :
  as_Signal v = None → last_signal (pre ++ [v]) = last_signal pre.
Proof.
  intros Hv. unfold last_signal. rewrite omap_app. simpl. rewrite Hv.
  by rewrite app_nil_r.
Qed.

Lemma last_signal_no_Signal (pre : list value) :
  Forall (λ v, as_Signal v = None) pre → last_signal pre = nilSignal.
Proof.
  induction pre as [|v pre IH] using rev_ind; [intros _; reflexivity|].
  intros [Hpre Hv]%Forall_app. rewrite Forall_singleton in Hv.
  rewrite last_signal_snoc_other by done. auto.
Qed.

Lemma Notify_loop_snoc (pre : list value) (v : value) :
  Notify_loop (pre ++ [v]) = Notify_entry (Notify_loop pre) v.
Proof. apply foldl_snoc. Qed.

(** The loop variable [s] holds the most recently seen signal entry. *)
Lemma Notify_loop_last_signal (signals : list value) :
  (Notify_loop signals).1 = last_signal signals.
Proof.
  induction signals as [|v pre IH] using rev_ind; [done|].
  rewrite Notify_loop_snoc. unfold Notify_entry.
  destruct (Notify_loop pre) as [s sigs]. simpl in IH. subst s.
  destruct (as_Signal v) as [tv|] eqn:Hv.
  - simpl. by rewrite (last_signal_snoc_Signal _ _ tv).
  - rewrite last_signal_snoc_other by done. by destruct (as_int v).
Qed.

Lemma Notify_entry_skip (acc : Signal * gmap Signal Z) (v : value) :
  as_Signal v = None → as_int v = None → Notify_entry acc v = acc.
Proof. intros Hs Hi. unfold Notify_entry. destruct acc. by rewrite Hs, Hi. Qed.

Lemma Notify_sigs_cons (v : value) (signals : list value) :
  Notify_sigs (v :: signals) = (Notify_loop (v :: signals)).2.
Proof. reflexivity. Qed.

Lemma Notify_sigs_nonempty (signals : list value) :
  signals ≠ [] → Notify_sigs signals = (Notify_loop signals).2.
Proof. by destruct signals. Qed.

(** C10: what each entry of a non-empty argument list does to the map
    that [Notify] resolves.  A signal entry records code 0 for itself;
    an integer entry records its value for the most recently preceding
    signal entry, replacing what was recorded for it; an integer entry
    that no signal entry precedes is recorded for the nil signal; an
    entry that is neither is skipped. *)
Theorem Notify_entry_effects :
  (∀ signals, signals ≠ [] → Notify_sigs signals = (Notify_loop signals).2) ∧
  (∀ pre v s, as_Signal v = Some s →
     (Notify_loop (pre ++ [v])).2 = <[s := 0]> (Notify_loop pre).2) ∧
  (∀ pre n,
     (Notify_loop (pre ++ [VInt n])).2 =
       <[last_signal pre := n]> (Notify_loop pre).2 ∧
     Notify_sigs (pre ++ [VInt n]) !! last_signal pre = Some n) ∧
  (∀ pre n, Forall (λ v, as_Signal v = None) pre →
     Notify_sigs (pre ++ [VInt n]) !! nilSignal = Some n) ∧
  (∀ pre v post, as_Signal v = None → as_int v = None →
     Notify_loop (pre ++ v :: post) = Notify_loop (pre ++ post)).
Proof.
  assert (∀ pre n, (Notify_loop (pre ++ [VInt n])).2 =
            <[last_signal pre := n]> (Notify_loop pre).2) as Hint.
  { intros pre n. rewrite Notify_loop_snoc, <- Notify_loop_last_signal.
    by destruct (Notify_loop pre). }
  assert (∀ pre n,
            Notify_sigs (pre ++ [VInt n]) !! last_signal pre = Some n) as Hlook.
  { intros pre n. rewrite Notify_sigs_nonempty by by destruct pre.
    by rewrite Hint, lookup_insert_eq. }
  repeat split.
  - apply Notify_sigs_nonempty.
  - intros pre v s Hv. rewrite Notify_loop_snoc. unfold Notify_entry.
    destruct (Notify_loop pre). by rewrite Hv.
  - apply Hint.
  - apply Hlook.
  - intros pre n Hpre. rewrite <- (last_signal_no_Signal pre Hpre).
    apply Hlook.
  - intros pre v post Hs Hi. unfold Notify_loop. rewrite !foldl_app. simpl.
    f_equal. by apply Notify_entry_skip.
Qed.

Lemma Notify_loop_group (pre : list value) (g : Signal * option Z) :
  g.1 ≠ nilSignal →
  Notify_loop (pre ++ group_entries g) =
    (g.1, <[g.1 := default 0 g.2]> (Notify_loop pre).2).
Proof.
  destruct g as [s [n|]]; simpl; intros Hs; unfold Notify_loop, group_entries.
  - rewrite foldl_app. simpl.
    destruct (foldl Notify_entry (nilSignal, ∅) pre) as [s0 sigs]. simpl.
    rewrite (as_Signal_sig_value s Hs). simpl.
    by rewrite insert_insert_eq.
  - rewrite foldl_app. simpl.
    destruct (foldl Notify_entry (nilSignal, ∅) pre) as [s0 sigs]. simpl.
    by rewrite (as_Signal_sig_value s Hs).
Qed.

Lemma entries_snoc groups g :
  entries (groups ++ [g]) = entries groups ++ group_entries g.
Proof. unfold entries. rewrite bind_app, bind_cons. simpl. by rewrite app_nil_r. Qed.

Lemma entries_nonempty groups : groups ≠ [] → entries groups ≠ [].
Proof. by destruct groups. Qed.

Lemma Notify_loop_groups (groups : list (Signal * option Z)) (s : Signal) :
  Forall (λ g, g.1 ≠ nilSignal) groups →
  (Notify_loop (entries groups)).2 !! s =
    (λ g, default 0 g.2) <$> last (filter (λ g, g.1 = s) groups).
Proof.
  induction groups as [|g groups IH] using rev_ind; [done|].
  intros [Hgs Hg]%Forall_app. rewrite Forall_singleton in Hg.
  rewrite entries_snoc, Notify_loop_group by done. simpl.
  rewrite filter_app. destruct (decide (g.1 = s)) as [<-|Hne].
  - rewrite lookup_insert_eq.
    rewrite (filter_cons_True (λ g0, g0.1 = g.1)), filter_nil by done.
    by rewrite last_snoc.
  - rewrite lookup_insert_ne by done.
    rewrite (filter_cons_False (λ g0, g0.1 = s)), filter_nil, app_nil_r by done.
    auto.
Qed.

(** C8, as the code has it: for a non-empty argument list in which
    every signal is optionally followed by an integer, the resolved map
    sends a signal to the integer that follows its last listing, to 0
    when no integer follows its last listing, and holds no other
    signal. *)
Theorem Notify_sigs_groups (groups : list (Signal * option Z)) (s : Signal) :
  groups ≠ [] →
  Forall (λ g, g.1 ≠ nilSignal) groups →
  Notify_sigs (entries groups) !! s =
    (λ g, default 0 g.2) <$> last (filter (λ g, g.1 = s) groups).
Proof.
  intros Hne Hall.
  rewrite Notify_sigs_nonempty by by apply entries_nonempty.
  by apply Notify_loop_groups.
Qed.

(** ** Reset and the trapped signals *)

Section Trap.
Context {H Ctx : Type}.
Implicit Types (st : pkg H) (ctx : Ctx).

(** No function of the package assigns the package-level [notified]. *)
Lemma notified_never_assigned st :
  (∀ f p st', RegisterWithPriority f p st = Ok st' → notified st' = notified st) ∧
  (∀ ctx signals, notified (Notify ctx signals st).1 = notified st) ∧
  notified (Reset st) = notified st.
Proof.
  repeat split; [|done..].
  intros f p st'. unfold RegisterWithPriority.
  destruct (go_assign _ _ _); [|done]. by intros [= <-].
Qed.

(** The package-level [notified] is still empty when [Reset] reads it,
    so [signal.Reset] is called without arguments and stops the relay of
    every signal. *)
Lemma Reset_after_Notify_relays_nothing st ctx signals :
  notified st = [] →
  relayed (Reset (Notify ctx signals st).1) = ∅.
Proof. intros Hn. unfold Reset. simpl. by rewrite Hn. Qed.

End Trap.

(** ** The gate *)

Section Gate.
Context {H Ctx : Type}.
Implicit Types (st : pkg H) (c : config H Ctx) (t : nat) (th : thread H Ctx).

Lemma handle_length (ctx : Ctx) s st :
  length (handle ctx s st) = drain_length st.
Proof.
  unfold handle, drain_length.
  by rewrite handle_with_drain_with, length_fmap.
Qed.

Lemma sum_list_insert (f : thread H Ctx → nat) l t th th' :
  l !! t = Some th →
  (sum_list (f <$> <[t := th']> l) + f th = sum_list (f <$> l) + f th')%nat.
Proof.
  revert t. induction l as [|a l IH]; intros [|t] Hl; simplify_eq/=.
  - lia.
  - specialize (IH _ Hl). lia.
Qed.

Lemma sum_list_lookup_le (f : thread H Ctx → nat) l t th :
  l !! t = Some th → (f th ≤ sum_list (f <$> l))%nat.
Proof.
  revert t. induction l as [|a l IH]; intros [|t] Hl; simplify_eq/=.
  - lia.
  - specialize (IH _ Hl). lia.
Qed.

Lemma fuel_upd t th th' c :
  c_exited c = None → c_threads c !! t = Some th →
  (thread_weight (c_pkg c) th' < thread_weight (c_pkg c) th)%nat →
  ∀ c', c_pkg c' = c_pkg c → c_threads c' = <[t := th']> (c_threads c) →
  (fuel c' < fuel c)%nat.
Proof.
  intros Hex Hth Hlt c' Hpkg Hths. unfold fuel. rewrite Hex, Hpkg, Hths.
  pose proof (sum_list_insert (thread_weight (c_pkg c)) _ _ _ th' Hth).
  destruct (c_exited c'); lia.
Qed.

(** Every step uses up fuel: no interleaving runs forever. *)
Lemma step_fuel t c c' : step t c = Some c' → (fuel c' < fuel c)%nat.
Proof.
  unfold step. intros Hstep.
  destruct (c_exited c) eqn:Hex; [done|].
  destruct (c_threads c !! t) as [th|] eqn:Hth; simpl in Hstep; [|done].
  destruct (t_pc th) as [|ctx code|ctx s x fe|ctx s x fe|[|i rest] x] eqn:Hpc.
  - destruct (t_prog th !! t_ip th) as [[ctx code|l s]|] eqn:Hcl; [| |done].
    + destruct (c_lock c); simplify_eq.
      apply lookup_lt_Some in Hcl.
      eapply (fuel_upd t th); [done..| |done|done].
      unfold thread_weight. rewrite Hpc. simpl. nia.
    + apply lookup_lt_Some in Hcl.
      destruct (l_sigs l !! s); simplify_eq;
        (eapply (fuel_upd t th); [done..| |done|done]);
        unfold thread_weight; rewrite Hpc; simpl; nia.
  - simplify_eq. eapply (fuel_upd t th); [done..| |done|done].
    unfold thread_weight. rewrite Hpc. simpl. lia.
  - destruct (c_once_done c); simplify_eq.
    + eapply (fuel_upd t th (set_pc th Idle)); [done..| | |].
      * unfold thread_weight. rewrite Hpc. simpl. lia.
      * by destruct fe.
      * by destruct fe.
    + eapply (fuel_upd t th); [done..| |done|done].
      unfold thread_weight. rewrite Hpc. simpl. lia.
  - destruct (c_once_m c); [done|]. destruct (c_once_done c); simplify_eq.
    + eapply (fuel_upd t th (set_pc th Idle)); [done..| | |].
      * unfold thread_weight. rewrite Hpc. simpl. lia.
      * by destruct fe.
      * by destruct fe.
    + eapply (fuel_upd t th); [done..| |done|done].
      unfold thread_weight. rewrite Hpc. simpl. rewrite handle_length. lia.
  - simplify_eq. unfold fuel. rewrite Hex. simpl.
    pose proof (sum_list_lookup_le (thread_weight (c_pkg c)) _ _ _ Hth) as Hs.
    unfold thread_weight at 1 in Hs. rewrite Hpc in Hs. simpl in Hs. nia.
  - simplify_eq. eapply (fuel_upd t th); [done..| |done|done].
    unfold thread_weight. rewrite Hpc. simpl. lia.
Qed.

(** *** The invariant holds in every reachable configuration *)

Lemma gate_inv_init st (progs : list (list (call Ctx))) :
  gate_inv st progs (config_init st progs).
Proof.
  unfold gate_inv, config_init. simpl.
  split; [done|]. split; [|split; [done|split; [done|split]]].
  - rewrite <- list_fmap_compose. induction progs; by f_equal/=.
  - intros t th (prog & -> & _)%list_lookup_fmap_Some. split; [|done].
    intros i cl Hi. unfold returned_calls in Hi. simpl in Hi. lia.
  - unfold claim_inv. simpl. repeat split.
    intros t th (prog & -> & _)%list_lookup_fmap_Some. simpl. tauto.
Qed.

Lemma insert_lookup_cases (l : list (thread H Ctx)) t t' th th' :
  <[t := th']> l !! t' = Some th →
  (t' = t ∧ th = th') ∨ (t' ≠ t ∧ l !! t' = Some th).
Proof.
  rewrite list_lookup_insert_Some.
  intros [(-> & -> & _)|[? ?]]; [by left|right]; by split.
Qed.

(** A step that changes one goroutine outside [handle] and nothing of
    the gate. *)
Lemma gate_inv_frame st progs t th th' c c' :
  gate_inv st progs c → c_threads c !! t = Some th →
  t_prog th' = t_prog th →
  ¬ in_handle (t_pc th) → ¬ in_handle (t_pc th') →
  thread_inv st th' →
  (t_pc th' = Idle → t_pc th = Idle ∧ c_lock c' = c_lock c) →
  c_pkg c' = c_pkg c → c_threads c' = <[t := th']> (c_threads c) →
  c_once_m c' = c_once_m c → c_once_done c' = c_once_done c →
  c_claims c' = c_claims c → c_trace c' = c_trace c →
  c_exited c' = c_exited c →
  gate_inv st progs c'.
Proof.
  intros (Hpkg & Hprogs & Hdone & Hlock & Hths & Hclaim) Hth Hprog Hnin Hnin'
    Hinv' Hidle Epkg Eths Em Edone Eclaims Etrace Eex.
  pose proof (lookup_lt_Some _ _ _ Hth) as Hlt.
  unfold gate_inv. rewrite Epkg, Eths, Edone.
  split; [done|]. split; [|split; [done|split; [|split]]].
  - rewrite list_fmap_insert, Hprog. rewrite list_insert_id; [done|].
    by rewrite list_lookup_fmap, Hth.
  - intros Hl.
    assert (t_pc th' = Idle ∨ t_pc th' ≠ Idle) as [Hi|Hni]
      by (destruct (t_pc th'); [by left|by right..]).
    + destruct (Hidle Hi) as [Hi0 El]. rewrite El in Hl.
      destruct (Hlock Hl) as (t0 & th0 & Hth0 & Hni0).
      exists t0, th0. split; [|done]. rewrite list_lookup_insert_ne; [done|].
      intros ->. congruence.
    + exists t, th'. split; [|done]. by apply list_lookup_insert_eq.
  - intros t' th0 [[-> ->]|[_ Hth0]]%insert_lookup_cases; eauto.
  - unfold claim_inv in *. rewrite Eclaims, Em, Etrace, Eex, Eths.
    destruct (c_claims c) as [|[[w s] x] [|? ?]]; [| |done].
    + destruct Hclaim as (? & ? & ? & Hno). repeat split; try done.
      intros t' th0 [[-> ->]|[_ Hth0]]%insert_lookup_cases; eauto.
    + destruct Hclaim as (? & (thw & ctx & cl & rest & Hw & Hpcw & ?) & Honly).
      assert (w ≠ t) as Hne.
      { intros ->. rewrite Hth in Hw. simplify_eq. apply Hnin.
        by rewrite Hpcw. }
      split; [done|]. split.
      * exists thw, ctx, cl, rest. by rewrite list_lookup_insert_ne.
      * intros t' th0 [[-> ->]|[_ Hth0]]%insert_lookup_cases; [done|eauto].
Qed.

Lemma thread_inv_begin st th (p : pc H Ctx) cl :
  thread_inv st th → t_pc th = Idle → t_prog th !! t_ip th = Some cl →
  match p with
  | Idle => supplied st cl = None
  | InHandle _ _ => True
  | ExitLocked ctx exitCode => cl = CallExit ctx exitCode
  | OnceEnter ctx s x _ | OnceSlow ctx s x _ =>
      supplied st cl = Some (ctx, s, x)
  end →
  thread_inv st (begin_call th p).
Proof.
  intros [Hret _] Hpc Hcl Hp. unfold returned_calls in Hret.
  rewrite Hpc in Hret. split.
  - intros i cl' Hi Hcl'. simpl in *.
    assert (i < t_ip th ∨ (i = t_ip th ∧ p = Idle))%nat as [?|[-> ->]].
    { unfold returned_calls in Hi. simpl in Hi.
      destruct p; simpl in Hi; [|left; lia..].
      destruct (decide (i = t_ip th)); [by right|left; lia]. }
    + eauto.
    + simpl in Hp. congruence.
  - unfold current_call. destruct p; simpl; try done.
    + by subst.
    + eauto.
    + eauto.
Qed.

Lemma thread_inv_set_pc st th (p : pc H Ctx) :
  thread_inv st th → t_pc th ≠ Idle → p ≠ Idle →
  match p with
  | Idle | InHandle _ _ => True
  | ExitLocked ctx exitCode => current_call th = Some (CallExit ctx exitCode)
  | OnceEnter ctx s x _ | OnceSlow ctx s x _ =>
      ∃ cl, current_call th = Some cl ∧ supplied st cl = Some (ctx, s, x)
  end →
  thread_inv st (set_pc th p).
Proof.
  intros [Hret _] Hni Hp Hframe. split.
  - intros i cl Hi. apply Hret. unfold returned_calls in *. simpl in Hi.
    destruct (t_pc th); [done|..]; by destruct p.
  - by destruct p.
Qed.

(** A step of a goroutine that stays inside its call: everything but
    the part of the invariant about the gate itself. *)
Lemma gate_inv_upd st progs t th th' c c' :
  gate_inv st progs c → c_threads c !! t = Some th →
  t_prog th' = t_prog th → thread_inv st th' → t_pc th' ≠ Idle →
  c_pkg c' = c_pkg c → c_threads c' = <[t := th']> (c_threads c) →
  c_once_done c' = c_once_done c →
  claim_inv st c' →
  gate_inv st progs c'.
Proof.
  intros (Hpkg & Hprogs & Hdone & Hlock & Hths & _) Hth Hprog Hinv' Hni
    Epkg Eths Edone Hclaim'.
  pose proof (lookup_lt_Some _ _ _ Hth) as Hlt.
  unfold gate_inv. rewrite Epkg, Eths, Edone.
  split; [done|]. split; [|split; [done|split; [|split; [|done]]]].
  - rewrite list_fmap_insert, Hprog. rewrite list_insert_id; [done|].
    by rewrite list_lookup_fmap, Hth.
  - intros _. exists t, th'. split; [|done]. by apply list_lookup_insert_eq.
  - intros t' th0 [[-> ->]|[_ Hth0]]%insert_lookup_cases; eauto.
Qed.

Lemma gate_inv_step st progs t c c' :
  gate_inv st progs c → step t c = Some c' → gate_inv st progs c'.
Proof.
  intros Hinv Hstep.
  pose proof Hinv as (Hpkg & Hprogs & Hdone & Hlock & Hths & Hclaim).
  unfold step in Hstep.
  destruct (c_exited c) eqn:Hex; [done|].
  destruct (c_threads c !! t) as [th|] eqn:Hth; simpl in Hstep; [|done].
  pose proof (Hths _ _ Hth) as Hthinv.
  pose proof (lookup_lt_Some _ _ _ Hth) as Hlt.
  rewrite Hdone in Hstep.
  destruct (t_pc th) as [|ctx code|ctx s x fe|ctx s x fe|[|i rest] x] eqn:Hpc.
  - destruct (t_prog th !! t_ip th) as [[ctx code|l s]|] eqn:Hcl; [| |done].
    + destruct (c_lock c) eqn:Hl; simplify_eq.
      eapply (gate_inv_frame _ _ t th (begin_call th (ExitLocked ctx code)));
        try done.
      * rewrite Hpc. simpl. tauto.
      * simpl. tauto.
      * by eapply thread_inv_begin.
    + destruct (l_sigs l !! s) as [x|] eqn:Hs; simplify_eq.
      * eapply (gate_inv_frame _ _ t th
                  (begin_call th (OnceEnter (l_ctx l) s x false))); try done.
        -- rewrite Hpc. simpl. tauto.
        -- simpl. tauto.
        -- eapply thread_inv_begin; [done..|]. simpl. by rewrite Hs.
      * eapply (gate_inv_frame _ _ t th (begin_call th Idle)); try done.
        -- rewrite Hpc. simpl. tauto.
        -- simpl. tauto.
        -- eapply thread_inv_begin; [done..|]. simpl. by rewrite Hs.
  - simplify_eq. pose proof Hthinv as [? Hframe]. rewrite Hpc in Hframe.
    eapply (gate_inv_frame _ _ t th (set_pc th (OnceEnter ctx noSigVal
              (if bool_decide (code < 0) then ExitCode (c_pkg c) else code)
              true))); try done.
    + rewrite Hpc. simpl. tauto.
    + simpl. tauto.
    + apply thread_inv_set_pc; [done|by rewrite Hpc|done|]. eauto.
  - simplify_eq. pose proof Hthinv as [? Hframe]. rewrite Hpc in Hframe.
    eapply (gate_inv_frame _ _ t th (set_pc th (OnceSlow ctx s x fe)));
      try done.
    + rewrite Hpc. simpl. tauto.
    + simpl. tauto.
    + apply thread_inv_set_pc; [done|by rewrite Hpc|done|]. eauto.
  - destruct (c_once_m c) eqn:Hm; [done|]. simplify_eq.
    pose proof Hthinv as [Hret Hframe]. rewrite Hpc in Hframe.
    destruct Hframe as (cl & Hcur & Hsup).
    unfold claim_inv in Hclaim.
    destruct (c_claims c) as [|[[w s0] x0] [|? ?]] eqn:Hcl; [| |done].
    2:{ destruct Hclaim as [? _]. congruence. }
    destruct Hclaim as (_ & Htr & _ & Hno).
    eapply (gate_inv_upd _ _ t th
              (set_pc th (InHandle (handle ctx s (c_pkg c)) x))); try done.
    + apply thread_inv_set_pc; [done|by rewrite Hpc|done..].
    + unfold claim_inv, enter_once. simpl. rewrite Hcl, Htr, Hex. simpl.
      split; [done|]. split.
      * eexists _, ctx, cl, _. rewrite list_lookup_insert_eq by done.
        split; [done|]. simpl. repeat split; try done.
      * intros t' th0 [[-> ->]|[_ Hth0]]%insert_lookup_cases; [done|].
        intros Hin. by destruct (Hno _ _ Hth0).
  - simplify_eq. unfold gate_inv, os_Exit. simpl.
    do 5 (split; [done|]).
    unfold claim_inv in *. simpl.
    destruct (c_claims c) as [|[[w s0] x0] [|? ?]] eqn:Hcl; [| |done].
    { destruct Hclaim as (_ & _ & _ & Hno). destruct (Hno _ _ Hth).
      by rewrite Hpc. }
    destruct Hclaim as (? & (thw & ctx & cl & rest & Hw & Hpcw & ? & ? & ? & ?)
                        & Honly).
    assert (t = w) as -> by (apply (Honly _ _ Hth); by rewrite Hpc).
    simplify_eq. rewrite Hpc in Hpcw. simplify_eq.
    split; [done|]. split; [|done].
    exists th, ctx, cl, []. repeat split; try done; congruence.
  - simplify_eq.
    unfold claim_inv in Hclaim.
    destruct (c_claims c) as [|[[w s0] x0] [|? ?]] eqn:Hcl; [| |done].
    { destruct Hclaim as (_ & _ & _ & Hno). destruct (Hno _ _ Hth).
      by rewrite Hpc. }
    destruct Hclaim as (? & (thw & ctx & cl & rest0 & Hw & Hpcw & ? & ? & Htr & ?)
                        & Honly).
    assert (t = w) as -> by (apply (Honly _ _ Hth); by rewrite Hpc).
    simplify_eq. rewrite Hpc in Hpcw. simplify_eq.
    eapply (gate_inv_upd _ _ w th (set_pc th (InHandle rest x0))); try done.
    + split; [|done]. destruct Hthinv as [Hret _]. intros j cl' Hj.
      apply Hret. unfold returned_calls in *. simpl in Hj. by rewrite Hpc.
    + unfold claim_inv, call_handler. simpl. rewrite Hcl, Hex.
      split; [done|]. split.
      * eexists _, ctx, cl, rest. rewrite list_lookup_insert_eq by done.
        split; [done|]. simpl. rewrite <- app_assoc. repeat split; done.
      * intros t' th0 [[-> ->]|[_ Hth0]]%insert_lookup_cases; [done|eauto].
Qed.

Lemma gate_inv_rtc st progs c c' :
  gate_inv st progs c → rtc steps c c' → gate_inv st progs c'.
Proof.
  intros Hinv Hrtc. induction Hrtc as [|c1 c2 c3 [t Hstep] _ IH]; [done|].
  eauto using gate_inv_step.
Qed.

Lemma gate_inv_reachable st (progs : list (list (call Ctx))) c :
  rtc steps (config_init st progs) c → gate_inv st progs c.
Proof. apply gate_inv_rtc, gate_inv_init. Qed.

(** *** Schedules and termination *)

Lemma run_rtc (schedule : list nat) c : rtc steps c (run schedule c).
Proof.
  revert c. induction schedule as [|t schedule IH]; intros c; [done|].
  simpl. destruct (step t c) as [c'|] eqn:Hstep; simpl; [|done].
  eapply rtc_l; [by exists t|done].
Qed.

Lemma run_app (s1 s2 : list nat) c : run (s1 ++ s2) c = run s2 (run s1 c).
Proof. revert c. induction s1 as [|t s1 IH]; intros c; [done|]. apply IH. Qed.

Lemma run_blocked t c n : step t c = None → run (replicate n t) c = c.
Proof. intros Hb. induction n as [|n IH]; [done|]. simpl. by rewrite Hb. Qed.

Lemma nsteps_fuel n c c' :
  nsteps steps n c c' → (n + fuel c' ≤ fuel c)%nat.
Proof.
  induction 1 as [|n c1 c2 c3 [t Hstep] _ IH]; [done|].
  apply step_fuel in Hstep. lia.
Qed.

(** *** The log of entries into the function of once.Do *)

Lemma step_claims t c c' :
  step t c = Some c' → c_claims c `prefix_of` c_claims c'.
Proof.
  unfold step. intros Hstep.
  destruct (c_exited c); [done|].
  destruct (c_threads c !! t) as [th|]; simpl in Hstep; [|done].
  destruct (t_pc th) as [|ctx code|ctx s x fe|ctx s x fe|[|i rest] x].
  - destruct (t_prog th !! t_ip th) as [[ctx code|l s]|]; [| |done].
    + destruct (c_lock c); by simplify_eq.
    + destruct (l_sigs l !! s); by simplify_eq.
  - by simplify_eq.
  - destruct (c_once_done c), fe; by simplify_eq.
  - destruct (c_once_m c); [done|].
    destruct (c_once_done c), fe; simplify_eq; try done;
      by apply prefix_app_r.
  - by simplify_eq.
  - by simplify_eq.
Qed.

Lemma rtc_claims c c' :
  rtc steps c c' → c_claims c `prefix_of` c_claims c'.
Proof.
  induction 1 as [|c1 c2 c3 [t Hstep] _ IH]; [done|].
  etrans; [by eapply step_claims|done].
Qed.

Lemma gate_inv_claims st progs c :
  gate_inv st progs c → (length (c_claims c) ≤ 1)%nat.
Proof.
  intros (_ & _ & _ & _ & _ & Hclaim). unfold claim_inv in Hclaim.
  destruct (c_claims c) as [|[[? ?] ?] [|? ?]]; simpl; [lia|lia|done].
Qed.

(** Once the function has been entered, the log does not change. *)
Lemma claims_stable st progs c c' :
  gate_inv st progs c → rtc steps c c' → c_claims c ≠ [] →
  c_claims c' = c_claims c.
Proof.
  intros Hinv Hrtc Hne.
  pose proof (gate_inv_claims _ _ _ (gate_inv_rtc _ _ _ _ Hinv Hrtc)) as Hlen.
  destruct (rtc_claims _ _ Hrtc) as [k Hk]. rewrite Hk in *.
  rewrite length_app in Hlen.
  destruct (c_claims c); [done|]. destruct k; [by rewrite app_nil_r|].
  simpl in Hlen. lia.
Qed.

(** The goroutine that entered: its call, and how far it has got. *)
Lemma gate_inv_winner st progs c w s x :
  gate_inv st progs c → c_claims c = [(w, s, x)] →
  ∃ prog cl ctx,
    progs !! w = Some prog ∧ cl ∈ prog ∧ supplied st cl = Some (ctx, s, x) ∧
    c_trace c `prefix_of` handle ctx s st ∧
    ∀ x', c_exited c = Some x' → x' = x ∧ c_trace c = handle ctx s st.
Proof.
  intros (_ & Hprogs & _ & _ & _ & Hclaim) Hcl. unfold claim_inv in Hclaim.
  rewrite Hcl in Hclaim.
  destruct Hclaim as (_ & (th & ctx & cl & rest & Hw & _ & Hcur & Hsup & Htr & Hex)
                      & _).
  exists (t_prog th), cl, ctx.
  split; [by rewrite <- Hprogs, list_lookup_fmap, Hw|].
  split. { unfold current_call in Hcur. destruct (t_ip th); [done|].
           by eapply list_elem_of_lookup_2. }
  split; [done|]. split; [by exists rest|].
  intros x' Hx'. destruct (Hex _ Hx') as [-> ->].
  by rewrite app_nil_r in Htr.
Qed.

(** *** Progress: a configuration that cannot move has exited *)

Lemma stuck_exited st progs c :
  gate_inv st progs c → stuck c →
  (∃ prog cl, prog ∈ progs ∧ cl ∈ prog ∧ is_Some (supplied st cl)) →
  is_Some (c_exited c).
Proof.
  intros (Hpkg & Hprogs & Hdone & Hlock & Hths & Hclaim) Hstuck
    (prog & cl & Hprog & Hcl & Hsup).
  destruct (c_exited c) as [x|] eqn:Hex; [by eexists|]. exfalso.
  assert (∀ t th, c_threads c !! t = Some th →
            match t_pc th with
            | Idle => match t_prog th !! t_ip th with
                      | Some (CallExit _ _) => c_lock c = true
                      | Some (CallDeliver _ _) => False
                      | None => True
                      end
            | OnceSlow _ _ _ _ => c_once_m c = true
            | _ => False
            end) as Hblocked.
  { intros t th Hth. specialize (Hstuck t). unfold step in Hstuck.
    rewrite Hex, Hth, Hdone in Hstuck. simpl in Hstuck.
    destruct (t_pc th) as [|? ?|? ? ? ?|? ? ? ?|[|? ?] ?]; try done.
    - destruct (t_prog th !! t_ip th) as [[? ?|l s]|]; [| |done].
      + by destruct (c_lock c).
      + by destruct (l_sigs l !! s).
    - by destruct (c_once_m c). }
  unfold claim_inv in Hclaim.
  destruct (c_claims c) as [|[[w s] x] [|? ?]]; [| |done].
  - destruct Hclaim as (Hm & _ & _ & _).
    assert (∀ t th, c_threads c !! t = Some th → t_pc th = Idle) as Hidle.
    { intros t th Hth. specialize (Hblocked t th Hth).
      destruct (t_pc th); try done. congruence. }
    assert (c_lock c = false) as Hl.
    { destruct (c_lock c); [|done].
      destruct Hlock as (t & th & Hth & Hni); [done|].
      by destruct Hni; eapply Hidle. }
    rewrite <- Hprogs in Hprog.
    apply list_elem_of_fmap in Hprog as (th & -> & Hin).
    apply list_elem_of_lookup in Hin as [t Hth].
    apply list_elem_of_lookup in Hcl as [i Hi].
    destruct (Hths t th Hth) as [Hret _].
    specialize (Hblocked t th Hth). unfold returned_calls in Hret.
    rewrite (Hidle t th Hth) in Hret, Hblocked.
    assert (i < t_ip th)%nat as Hlt.
    { apply lookup_lt_Some in Hi.
      destruct (t_prog th !! t_ip th) as [[? ?|? ?]|] eqn:Hnext;
        [congruence|done|].
      apply lookup_ge_None in Hnext. lia. }
    rewrite (Hret i cl Hlt Hi) in Hsup. by destruct Hsup.
  - destruct Hclaim as (_ & (th & ctx & cl' & rest & Hw & Hpcw & _) & _).
    specialize (Hblocked w th Hw). by rewrite Hpcw in Hblocked.
Qed.

Lemma stuck_claimed st progs c :
  gate_inv st progs c → stuck c →
  (∃ prog cl, prog ∈ progs ∧ cl ∈ prog ∧ is_Some (supplied st cl)) →
  ∃ w s x, c_claims c = [(w, s, x)] ∧ c_exited c = Some x.
Proof.
  intros Hinv Hstuck Hcalls.
  destruct (stuck_exited _ _ _ Hinv Hstuck Hcalls) as [x Hex].
  pose proof Hinv as (_ & _ & _ & _ & _ & Hclaim). unfold claim_inv in Hclaim.
  destruct (c_claims c) as [|[[w s] x0] [|? ?]] eqn:Hcl; [| |done].
  - destruct Hclaim as (_ & _ & ? & _). congruence.
  - exists w, s, x0. split; [done|].
    destruct (gate_inv_winner _ _ _ _ _ _ Hinv Hcl)
      as (prog & cl & ctx & _ & _ & _ & _ & Hx).
    destruct (Hx _ Hex) as [Heq _]. by rewrite <- Heq.
Qed.

(** C1: in every interleaving of goroutines that call [Exit] or handle a
    delivered signal, the function given to [once.Do] - the drain and
    [os.Exit] - is entered at most once; no interleaving runs forever;
    and when no goroutine can move any more, it has been entered, the
    handlers were called for the signal, and the process exited with the
    code, that the call of the entering goroutine supplied, provided
    some call reaches [handleOnce] at all ([Exit], or a signal of the
    listener's map).  The log of entries only grows, so the goroutine
    that entered is the first one to have got there. *)
Theorem handleOnce_exactly_once st (progs : list (list (call Ctx))) c :
  rtc steps (config_init st progs) c →
  (length (c_claims c) ≤ 1)%nat ∧
  (∀ c', rtc steps c c' → c_claims c `prefix_of` c_claims c') ∧
  (c_claims c = [] → c_trace c = [] ∧ c_exited c = None) ∧
  (∀ w s x, c_claims c = [(w, s, x)] →
     ∃ prog cl ctx,
       progs !! w = Some prog ∧ cl ∈ prog ∧
       supplied st cl = Some (ctx, s, x) ∧
       c_trace c `prefix_of` handle ctx s st ∧
       ∀ x', c_exited c = Some x' → x' = x ∧ c_trace c = handle ctx s st) ∧
  (∀ n, nsteps steps n (config_init st progs) c →
        (n ≤ fuel (config_init st progs))%nat) ∧
  (stuck c →
   (∃ prog cl, prog ∈ progs ∧ cl ∈ prog ∧ is_Some (supplied st cl)) →
   ∃ w s x, c_claims c = [(w, s, x)] ∧ c_exited c = Some x).
Proof.
  intros Hinv%gate_inv_reachable.
  split; [by eapply gate_inv_claims|].
  split; [apply rtc_claims|].
  split.
  { destruct Hinv as (_ & _ & _ & _ & _ & Hclaim). unfold claim_inv in Hclaim.
    intros Hcl. rewrite Hcl in Hclaim. tauto. }
  split; [intros w s x; by apply gate_inv_winner|].
  split.
  { intros n Hn%nsteps_fuel. lia. }
  by apply stuck_claimed.
Qed.

(** *** Callers that come after the function has been entered *)

(** A goroutine keeps its program, and its calls do not un-return. *)
Lemma step_thread_mono t0 t c c' th :
  step t0 c = Some c' → c_threads c !! t = Some th →
  ∃ th', c_threads c' !! t = Some th' ∧ t_prog th' = t_prog th ∧
         (returned_calls th ≤ returned_calls th')%nat.
Proof.
  unfold step. intros Hstep Hth.
  destruct (c_exited c); [done|].
  destruct (c_threads c !! t0) as [th0|] eqn:Hth0; simpl in Hstep; [|done].
  pose proof (lookup_lt_Some _ _ _ Hth0) as Hlt.
  assert (∀ th0' c0, c_threads c' = <[t0 := th0']> (c_threads c0) →
            c_threads c0 = c_threads c →
            t_prog th0' = t_prog th0 →
            (returned_calls th0 ≤ returned_calls th0')%nat →
            ∃ th', c_threads c' !! t = Some th' ∧ t_prog th' = t_prog th ∧
                   (returned_calls th ≤ returned_calls th')%nat) as Hupd.
  { intros th0' c0 -> -> Hp Hr. destruct (decide (t = t0)) as [->|Hne].
    - exists th0'. rewrite list_lookup_insert_eq by done.
      rewrite Hth0 in Hth. by simplify_eq.
    - exists th. by rewrite list_lookup_insert_ne. }
  unfold returned_calls in Hupd.
  destruct (t_pc th0) as [|ctx code|ctx s x fe|ctx s x fe|[|i rest] x].
  - destruct (t_prog th0 !! t_ip th0) as [[ctx code|l s]|]; [| |done].
    + destruct (c_lock c); simplify_eq.
      eapply (Hupd (begin_call th0 (ExitLocked ctx code)) (set_lock true c));
        simpl; done.
    + destruct (l_sigs l !! s) as [x|]; simplify_eq.
      * eapply (Hupd (begin_call th0 (OnceEnter (l_ctx l) s x false)) c);
          simpl; done.
      * eapply (Hupd (begin_call th0 Idle) c); simpl; try done. lia.
  - simplify_eq.
    eapply (Hupd (set_pc th0 (OnceEnter ctx noSigVal
              (if bool_decide (code < 0) then ExitCode (c_pkg c) else code)
              true)) c); simpl; done.
  - destruct (c_once_done c); simplify_eq.
    + eapply (Hupd (set_pc th0 Idle) (if fe then set_lock false c else c));
        simpl; try done; [by destruct fe|lia].
    + eapply (Hupd (set_pc th0 (OnceSlow ctx s x fe)) c); simpl; done.
  - destruct (c_once_m c); [done|]. destruct (c_once_done c); simplify_eq.
    + eapply (Hupd (set_pc th0 Idle) (if fe then set_lock false c else c));
        simpl; try done; [by destruct fe|lia].
    + eapply (Hupd (set_pc th0 (InHandle (handle ctx s (c_pkg c)) x)) c);
        simpl; done.
  - simplify_eq. exists th. by split.
  - simplify_eq. eapply (Hupd (set_pc th0 (InHandle rest x)) c); simpl; done.
Qed.

Lemma rtc_thread_mono t c c' th :
  rtc steps c c' → c_threads c !! t = Some th →
  ∃ th', c_threads c' !! t = Some th' ∧ t_prog th' = t_prog th ∧
         (returned_calls th ≤ returned_calls th')%nat.
Proof.
  intros Hrtc. revert th.
  induction Hrtc as [c|c1 c2 c3 [t0 Hstep] _ IH]; intros th Hth.
  - exists th. by split.
  - destruct (step_thread_mono _ _ _ _ _ Hstep Hth) as (th2 & Hth2 & Hp2 & Hr2).
    destruct (IH _ Hth2) as (th3 & Hth3 & Hp3 & Hr3).
    exists th3. split; [done|]. split; [congruence|lia].
Qed.

(** A step of a goroutine other than the one that entered leaves the
    trace, the exit status and the log alone. *)
Lemma step_loser_frame st progs t c c' w s x :
  gate_inv st progs c → c_claims c = [(w, s, x)] → t ≠ w →
  step t c = Some c' →
  c_trace c' = c_trace c ∧ c_exited c' = c_exited c ∧
  c_claims c' = c_claims c.
Proof.
  intros (_ & _ & _ & _ & _ & Hclaim) Hcl Hne. unfold claim_inv in Hclaim.
  rewrite Hcl in Hclaim. destruct Hclaim as (Hm & _ & Honly).
  unfold step. intros Hstep.
  destruct (c_exited c) eqn:Hex; [done|].
  destruct (c_threads c !! t) as [th|] eqn:Hth; simpl in Hstep; [|done].
  specialize (Honly t th Hth).
  destruct (t_pc th) as [|ctx code|ctx s' x' fe|ctx s' x' fe|[|i rest] x'].
  - destruct (t_prog th !! t_ip th) as [[ctx code|l s']|]; [| |done].
    + destruct (c_lock c); by simplify_eq/=.
    + destruct (l_sigs l !! s'); by simplify_eq/=.
  - by simplify_eq/=.
  - destruct (c_once_done c), fe; by simplify_eq/=.
  - rewrite Hm in Hstep. done.
  - by destruct Hne, Honly.
  - by destruct Hne, Honly.
Qed.

Lemma late_caller st progs c c' t th cl :
  gate_inv st progs c → c_claims c ≠ [] →
  c_threads c !! t = Some th → t_pc th = Idle →
  t_prog th !! t_ip th = Some cl → is_Some (supplied st cl) →
  rtc steps c c' →
  ∃ th', c_threads c' !! t = Some th' ∧
    returned_calls th' = returned_calls th ∧
    ¬ in_handle (t_pc th') ∧
    c_claims c' = c_claims c ∧
    ∀ c'', step t c' = Some c'' →
      c_trace c'' = c_trace c' ∧ c_exited c'' = c_exited c' ∧
      c_claims c'' = c_claims c'.
Proof.
  intros Hinv Hne Hth Hpc Hcl Hsup Hrtc.
  pose proof (gate_inv_rtc _ _ _ _ Hinv Hrtc) as Hinv'.
  pose proof (claims_stable _ _ _ _ Hinv Hrtc Hne) as Hst.
  destruct (rtc_thread_mono _ _ _ _ Hrtc Hth) as (th' & Hth' & Hp & Hr).
  assert (returned_calls th = t_ip th) as Hrc
    by (unfold returned_calls; by rewrite Hpc).
  pose proof Hinv as (_ & _ & _ & _ & _ & Hclaim).
  pose proof Hinv' as (_ & _ & _ & _ & Hths' & Hclaim').
  unfold claim_inv in Hclaim, Hclaim'. rewrite Hst in Hclaim'.
  destruct (c_claims c) as [|[[w s] x] [|? ?]] eqn:Ecl; [done| |done].
  destruct Hclaim as (_ & (thw & _ & _ & rest & Hw & Hpcw & _) & _).
  destruct Hclaim' as (_ & _ & Honly').
  assert (t ≠ w) as Htw.
  { intros ->. rewrite Hth in Hw. simplify_eq. congruence. }
  exists th'. split; [done|]. split; [|split; [|split; [done|]]].
  - destruct (Hths' _ _ Hth') as [Hret _].
    destruct (decide (returned_calls th' = returned_calls th)); [done|].
    assert (t_ip th < returned_calls th')%nat as Hlt by lia.
    rewrite <- Hp in Hcl. rewrite (Hret _ _ Hlt Hcl) in Hsup.
    by destruct Hsup.
  - intros Hin. by apply Htw, (Honly' _ _ Hth').
  - intros c'' Hstep.
    by eapply (step_loser_frame _ _ t c' c'' w s x).
Qed.


(** *** Exit on its own *)

Lemma run_single_stuck st (prog : list (call Ctx)) n c :
  gate_inv st [prog] c → (fuel c ≤ n)%nat →
  stuck (run (replicate n 0%nat) c).
Proof.
  revert c. induction n as [|n IH]; intros c Hinv Hfuel.
  - intros t. destruct (step t c) as [c'|] eqn:Hstep; [|done].
    apply step_fuel in Hstep. lia.
  - simpl. destruct (step 0%nat c) as [c'|] eqn:Hstep; simpl.
    + apply IH; [by eapply gate_inv_step|].
      apply step_fuel in Hstep. lia.
    + rewrite run_blocked by done. intros [|t]; [done|].
      destruct Hinv as (_ & Hprogs & _). unfold step.
      destruct (c_exited c); [done|].
      assert (c_threads c !! S t = None) as ->; [|done].
      apply lookup_ge_None.
      apply (f_equal length) in Hprogs. rewrite length_fmap in Hprogs.
      simpl in Hprogs. lia.
Qed.

(** C4: a goroutine that calls [Exit(ctx, exitCode)] on its own, run
    until it cannot move: the process has exited, with [ExitCode] as the
    status when [exitCode] is negative and with [exitCode] otherwise,
    after the handlers were called with [noSigVal]. *)
Theorem Exit_status st (ctx : Ctx) (exitCode : Z) (n : nat) :
  (fuel (config_init st [[CallExit ctx exitCode]]) ≤ n)%nat →
  let c := run (replicate n 0%nat) (config_init st [[CallExit ctx exitCode]]) in
  (exitCode < 0 → c_exited c = Some (ExitCode st)) ∧
  (0 ≤ exitCode → c_exited c = Some exitCode) ∧
  c_trace c = handle ctx noSigVal st.
Proof.
  intros Hn c.
  pose proof (gate_inv_init st [[CallExit ctx exitCode]]) as Hinit.
  pose proof (run_single_stuck _ _ _ _ Hinit Hn) as Hstuck. fold c in Hstuck.
  pose proof (gate_inv_rtc _ _ _ _ Hinit (run_rtc (replicate n 0%nat) _))
    as Hinv. fold c in Hinv.
  destruct (stuck_claimed _ _ _ Hinv Hstuck) as (w & s & x & Hcl & Hex).
  { exists [CallExit ctx exitCode], (CallExit ctx exitCode).
    repeat split; [apply list_elem_of_here..|by eexists]. }
  destruct (gate_inv_winner _ _ _ _ _ _ Hinv Hcl)
    as (prog & cl & ctx' & Hw & Hin & Hsup & _ & Hx).
  destruct (Hx _ Hex) as [_ Htr].
  destruct w as [|w]; [|by destruct w]. simpl in Hw. simplify_eq.
  apply list_elem_of_singleton in Hin as ->. simpl in Hsup. simplify_eq.
  rewrite Hex. split; [|split; [|done]]; intros Hc.
  - by rewrite bool_decide_eq_true_2.
  - by rewrite bool_decide_eq_false_2 by lia.
Qed.

End Gate.

(** ** The claims on concrete runs *)

(** C6: [Reset] after [Notify(ctx, SIGINT)] stops the relay of signal
    10, which the program had subscribed itself and [Notify] had not;
    and after [Notify(ctx, SIGHUP)] and then [Notify(ctx, SIGINT)] it
    stops the relay of SIGHUP too, which the most recent [Notify] had
    not subscribed.  The package-level [notified] is empty all along. *)
Theorem Reset_stops_signals_Notify_did_not_subscribe :
  let st1 := (Notify () [VSys 2] Scenario.with_own_signal).1 in
  let st2 := (Notify () [VSys 2] (Notify () [VSys 1] (pkg_init (H:=string))).1).1 in
  (notified st1 = [] ∧
   relayed Scenario.with_own_signal = {[10]} ∧
   relayed st1 = {[2; 10]} ∧
   relayed (Reset st1) = ∅) ∧
  (notified st2 = [] ∧
   relayed st2 = {[1; 2]} ∧
   relayed (Reset st2) = ∅).
Proof. vm_compute. repeat split. Qed.

(** The registrations of the README's example: H1 and H2 at priority 0,
    then H0 at priority -1. *)
Lemma handle_priority_then_registration_order_witness :
  handlers (pkg_init (H:=string)) = Some ∅ ∧
  ∃ st', register_all [("H1", 0); ("H2", 0); ("H0", -1)] pkg_init = Ok st' ∧
    ∀ ks, range_order (handlers st') ks →
    ∃ called : list (string * Z),
      handle_with ks () noSigVal st' = (λ x, Invoke x.1 () noSigVal) <$> called ∧
      called ≡ₚ [("H1", 0); ("H2", 0); ("H0", -1)] ∧
      StronglySorted Z.le called.*2 ∧
      ∀ p, filter (λ x, x.2 = p) called =
           filter (λ x, x.2 = p) [("H1", 0); ("H2", 0); ("H0", -1)].
Proof.
  split; [reflexivity|].
  apply (handle_priority_then_registration_order
           [("H1", 0); ("H2", 0); ("H0", -1)] pkg_init unit () noSigVal).
  reflexivity.
Defined.

Lemma Register_Reset_handle_empty_witness :
  is_Some (handlers (pkg_init (H:=string))) ∧
  ∃ st', RegisterWithPriority "H1" 0 pkg_init = Ok st' ∧
    (0 = 0 → Register "H1" pkg_init = Ok st') ∧
    ∀ (Ctx : Type) (ctx : Ctx) (s : Signal) (ks : list Z),
      range_order (handlers (Reset st')) ks →
      handle_with ks ctx s (Reset st') = [] ∧ handle ctx s (Reset st') = [].
Proof.
  split; [by eexists|].
  apply (Register_Reset_handle_empty "H1" 0 pkg_init). by eexists.
Defined.

(** An integer before any signal, and a skipped entry before it. *)
Lemma Notify_entry_effects_witness :
  Forall (λ v, as_Signal v = None) [VOther "x"] ∧
  Notify_sigs ([VOther "x"] ++ [VInt 5]) !! nilSignal = Some 5.
Proof.
  split; [by repeat constructor|].
  destruct Notify_entry_effects as (_ & _ & _ & Hnil & _).
  apply Hnil. by repeat constructor.
Defined.

(** [Notify(ctx, SIGINT, 1, SIGTERM)]: SIGTERM gets code 0. *)
Lemma Notify_sigs_groups_witness :
  [(SIGINT, Some 1); (SIGTERM, None)] ≠ [] ∧
  Forall (λ g : Signal * option Z, g.1 ≠ nilSignal)
    [(SIGINT, Some 1); (SIGTERM, None)] ∧
  Notify_sigs (entries [(SIGINT, Some 1); (SIGTERM, None)]) !! SIGTERM =
    (λ g, default 0 g.2) <$>
      last (filter (λ g, g.1 = SIGTERM) [(SIGINT, Some 1); (SIGTERM, None)]).
Proof.
  split; [done|]. split; [by repeat constructor|].
  apply (Notify_sigs_groups [(SIGINT, Some 1); (SIGTERM, None)] SIGTERM).
  - done.
  - by repeat constructor.
Defined.

(** C8 as stated fails where a signal is listed twice:
    [Notify(ctx, SIGINT, 1, SIGINT)] resolves SIGINT to 0, although the
    first listing of SIGINT is followed by the integer 1. *)
Lemma Notify_sigs_signal_listed_twice :
  ¬ (∀ groups : list (Signal * option Z),
       groups ≠ [] →
       Forall (λ g, g.1 ≠ nilSignal) groups →
       ∀ g, g ∈ groups →
         Notify_sigs (entries groups) !! g.1 = Some (default 0 g.2)).
Proof.
  intros Hclaim.
  specialize (Hclaim [(SIGINT, Some 1); (SIGINT, None)]).
  specialize (Hclaim ltac:(done) ltac:(by repeat constructor)
                (SIGINT, Some 1) ltac:(by left)).
  vm_compute in Hclaim. discriminate.
Qed.

(** [Exit(ctx, -1)] with [ExitCode] set to 9. *)
Lemma Exit_status_witness :
  (fuel (config_init (Scenario.with_default 9) [[CallExit () (-1)]]) ≤ 10)%nat ∧
  c_exited (run (replicate 10 0%nat)
              (config_init (Scenario.with_default 9) [[CallExit () (-1)]]))
    = Some 9.
Proof.
  assert (fuel (config_init (Scenario.with_default 9) [[CallExit () (-1)]]) ≤ 10)%nat
    as Hfuel by (vm_compute; lia).
  split; [exact Hfuel|].
  destruct (Exit_status (Scenario.with_default 9) () (-1) 10 Hfuel) as [Hneg _].
  apply Hneg. lia.
Defined.

(** Two goroutines call [Exit] with codes 3 and 7, scheduled in turn. *)
Lemma handleOnce_exactly_once_witness :
  let c := run (Scenario.round_robin 10) Scenario.two_exits in
  rtc steps Scenario.two_exits c ∧ stuck c ∧
  ∃ w s x, c_claims c = [(w, s, x)] ∧ c_exited c = Some x.
Proof.
  intros c.
  assert (rtc steps Scenario.two_exits c) as Hrtc by apply run_rtc.
  assert (stuck c) as Hstuck by (intros t; reflexivity).
  split; [exact Hrtc|]. split; [exact Hstuck|].
  destruct (handleOnce_exactly_once Scenario.registry
              [[CallExit () 3]; [CallExit () 7]] c Hrtc)
    as (_ & _ & _ & _ & _ & Hend).
  apply Hend; [exact Hstuck|].
  exists [CallExit () 3], (CallExit () 3).
  split; [by left|]. split; [by left|]. by eexists.
Defined.



(** * Further properties of the package *)

(** ** More on the registry *)

Section RegistryMore.
Context {H : Type}.
Implicit Types (st : pkg H) (f : H) (p : Z) (m : gmap Z (list H)).

(** X1: on a registry whose map is not nil, [RegisterWithPriority]
    succeeds; the bucket of the priority is the old bucket - empty if
    there was none - with the handler at its end; every other bucket and
    the other package variables are as before. *)
Theorem RegisterWithPriority_appends f p st m :
  handlers st = Some m →
  ∃ st', RegisterWithPriority f p st = Ok st' ∧
    go_index (handlers st') p = Some (default [] (m !! p) ++ [f]) ∧
    (∀ q, q ≠ p → go_index (handlers st') q = m !! q) ∧
    ExitCode st' = ExitCode st ∧ notified st' = notified st ∧
    relayed st' = relayed st.
Proof.
  intros Hm. eexists. split; [by apply RegisterWithPriority_Some|].
  simpl. split; [by rewrite lookup_insert_eq|].
  split; [|done]. intros q Hq. by rewrite lookup_insert_ne.
Qed.

Lemma register_all_dom regs st m :
  handlers st = Some m →
  (∀ p b, m !! p = Some b → b ≠ []) →
  ∃ m', register_all regs st = Ok (set_handlers st (Some m')) ∧
    (∀ p, is_Some (m' !! p) ↔ is_Some (m !! p) ∨ p ∈ regs.*2) ∧
    (∀ p b, m' !! p = Some b → b ≠ []).
Proof.
  revert st m. induction regs as [|[f q] regs IH]; intros st m Hm Hne.
  - exists m. split; [|split; [|done]].
    + simpl. destruct st; simpl in *; by subst.
    + intros p. split; [by left|]. intros [?|Hin]; [done|].
      by apply not_elem_of_nil in Hin.
  - simpl. rewrite (RegisterWithPriority_Some _ _ _ _ Hm).
    destruct (IH (set_handlers st (Some (<[q:=default [] (m !! q) ++ [f]]> m))) _
                eq_refl) as (m' & Hreg & Hdom & Hne').
    { intros p b. destruct (decide (q = p)) as [->|Hqp].
      - rewrite lookup_insert_eq. intros [= <-]. by intros [_ ?]%app_eq_nil.
      - rewrite lookup_insert_ne by done. apply Hne. }
    exists m'. split; [by rewrite Hreg, set_handlers_set_handlers|].
    split; [|done]. intros p. rewrite Hdom. simpl.
    rewrite elem_of_cons. destruct (decide (q = p)) as [->|Hqp].
    + rewrite lookup_insert_eq. split; [intros _; right; by left|].
      intros _. left. by eexists.
    + rewrite lookup_insert_ne by done. split; [tauto|].
      intros [?|[?|?]]; [by left|congruence|by right].
Qed.

(** X2: after a sequence of registrations into the empty registry, the
    map has a key exactly for the priorities that were registered, and
    no bucket is empty. *)
Theorem register_all_keys (regs : list (H * Z)) st :
  handlers st = Some ∅ →
  ∃ st', register_all regs st = Ok st' ∧
    NoDup (go_keys (handlers st')) ∧
    (∀ p, p ∈ go_keys (handlers st') ↔ p ∈ regs.*2) ∧
    (∀ p, go_index (handlers st') p ≠ Some []).
Proof.
  intros Hm.
  destruct (register_all_dom regs st ∅ Hm) as (m' & Hreg & Hdom & Hne);
    [by intros p b; rewrite lookup_empty|].
  eexists. split; [exact Hreg|]. simpl.
  split; [apply NoDup_elements|]. split.
  - intros p. rewrite elem_of_elements, elem_of_dom, Hdom, lookup_empty.
    split; [intros [[? [=]]|?]; done|by right].
  - intros p Hp. by apply (Hne p []).
Qed.

(** X3: registrations into a registry that already holds handlers.  The
    drain is sorted by priority, and at each priority it calls the
    handlers that were there, in their order, and then the new ones in
    the order of their registration. *)
Theorem handle_after_more_registrations
    (regs : list (H * Z)) st m (Ctx : Type) (ctx : Ctx) (s : Signal) :
  handlers st = Some m →
  ∃ st', register_all regs st = Ok st' ∧
    ∀ ks, range_order (handlers st') ks →
    ∃ called : list (H * Z),
      handle_with ks ctx s st' = (λ x, Invoke x.1 ctx s) <$> called ∧
      StronglySorted Z.le called.*2 ∧
      ∀ p, (filter (λ x, x.2 = p) called).*1 =
           default [] (m !! p) ++ (filter (λ x, x.2 = p) regs).*1.
Proof.
  intros Hm.
  destruct (register_all_buckets regs st m Hm) as (m' & Hreg & Hb).
  eexists. split; [exact Hreg|]. intros ks Hks.
  exists (drain_with ks (set_handlers st (Some m'))).
  split; [apply handle_with_drain_with|].
  split; [apply StronglySorted_buckets, sort_Ints_StronglySorted|].
  intros p. rewrite (drain_with_filter _ _ m') by done.
  rewrite <- Hb, <- list_fmap_compose.
  clear. induction (default [] (m' !! p)) as [|h b IH]; [done|].
  simpl. by f_equal.
Qed.

(** X4: the order in which the [range] loop of [handle] visits the keys
    of the map makes no difference to the handlers called, nor to their
    order. *)
Theorem handle_range_order_irrelevant
    (ks1 ks2 : list Z) (Ctx : Type) (ctx : Ctx) (s : Signal) st :
  range_order (handlers st) ks1 → range_order (handlers st) ks2 →
  handle_with ks1 ctx s st = handle_with ks2 ctx s st.
Proof.
  intros H1 H2. unfold handle_with.
  rewrite (sort_Ints_order_irrelevant ks1 ks2); [done|].
  unfold range_order in *. by rewrite H1, H2.
Qed.

End RegistryMore.

(** ** Sequences of calls *)

Section Calls.
Context {H Ctx : Type}.
Implicit Types (st : pkg H) (ops : list (op H Ctx)).

Lemma apply_ops_app ops1 ops2 st :
  apply_ops (ops1 ++ ops2) st =
  match apply_ops ops1 st with
  | Ok st' => apply_ops ops2 st'
  | Panic msg => Panic msg
  end.
Proof.
  revert st. induction ops1 as [|o ops1 IH]; intros st; [done|].
  simpl. destruct (apply_op o st); [apply IH|done].
Qed.

Lemma apply_ops_nil_handlers ops st :
  handlers st = None → Exists is_registration ops →
  ∃ msg, apply_ops ops st = Panic msg.
Proof.
  intros Hnil Hex. revert st Hnil.
  induction ops as [|o ops IH]; intros st Hnil; [by apply Exists_nil in Hex|].
  simpl. destruct o as [f|f p|ctx signals|]; simpl.
  - unfold Register. rewrite RegisterWithPriority_nil by done. by eexists.
  - rewrite RegisterWithPriority_nil by done. by eexists.
  - apply Exists_cons in Hex as [[]|Hex]. by apply IH.
  - apply Exists_cons in Hex as [[]|Hex]. by apply IH.
Qed.

(** X5: in a sequence of calls, a registration that comes after a
    [Reset] - however much later, and whatever was called before or in
    between - panics: no call of the package makes the map again. *)
Theorem no_registration_after_Reset ops1 ops2 st :
  Exists is_registration ops2 →
  ∃ msg, apply_ops (ops1 ++ OpReset :: ops2) st = Panic msg.
Proof.
  intros Hex. rewrite apply_ops_app.
  destruct (apply_ops ops1 st) as [st'|msg]; [|by eexists].
  simpl. by apply apply_ops_nil_handlers.
Qed.

Lemma apply_ops_notified ops st st' :
  apply_ops ops st = Ok st' → notified st' = notified st.
Proof.
  revert st. induction ops as [|o ops IH]; intros st; simpl.
  - by intros [= ->].
  - destruct (apply_op o st) as [st1|] eqn:Ho; [|done].
    intros Hops. rewrite (IH _ Hops).
    destruct (notified_never_assigned (Ctx:=Ctx) st) as (Hreg & _ & _).
    destruct o as [f|f p|ctx signals|]; simpl in Ho.
    + by eapply Hreg.
    + by eapply Hreg.
    + by injection Ho as <-.
    + by injection Ho as <-.
Qed.

(** X6: whatever the program has called before - registrations, any
    number of [Notify] with any arguments, earlier [Reset]s - the
    package-level [notified] is empty, and [Reset] leaves no signal
    relayed at all. *)
Theorem Reset_relays_nothing ops st st' :
  notified st = [] → apply_ops ops st = Ok st' →
  notified st' = [] ∧ relayed (Reset st') = ∅.
Proof.
  intros Hn Hops. apply apply_ops_notified in Hops. rewrite Hn in Hops.
  split; [done|]. unfold Reset. simpl. by rewrite Hops.
Qed.

End Calls.

(** ** More on the arguments of Notify *)

Lemma listed_snoc (pre : list value) (v : value) (s : Signal) :
  s ∈ listed (pre ++ [v]) ↔ s ∈ listed pre ∨ as_Signal v = Some s.
Proof.
  unfold listed. rewrite omap_app, elem_of_app. simpl.
  destruct (as_Signal v) as [tv|].
  - rewrite list_elem_of_singleton. split; intros [?|?]; auto; by simplify_eq; right.
  - split; [intros [?|Hin]; [by left|by apply not_elem_of_nil in Hin]|].
    intros [?|?]; [by left|done].
Qed.

Lemma listed_not_nil (signals : list value) : nilSignal ∉ listed signals.
Proof.
  unfold listed. rewrite list_elem_of_omap. intros (v & _ & Hv).
  by destruct v.
Qed.

Lemma last_signal_cases (pre : list value) :
  last_signal pre = nilSignal ∨ last_signal pre ∈ listed pre.
Proof.
  induction pre as [|v pre IH] using rev_ind; [by left|].
  destruct (as_Signal v) as [tv|] eqn:Hv.
  - right. rewrite (last_signal_snoc_Signal _ _ tv) by done.
    apply listed_snoc. by right.
  - rewrite last_signal_snoc_other by done.
    destruct IH as [?|?]; [by left|right]. apply listed_snoc. by left.
Qed.

Lemma Notify_loop_snoc_keys (pre : list value) (v : value) (s : Signal) :
  is_Some ((Notify_loop (pre ++ [v])).2 !! s) ↔
  is_Some ((Notify_loop pre).2 !! s) ∨ as_Signal v = Some s ∨
  (is_Some (as_int v) ∧ s = last_signal pre).
Proof.
  rewrite Notify_loop_snoc, <- Notify_loop_last_signal.
  destruct (Notify_loop pre) as [s0 sigs]. unfold Notify_entry. simpl.
  destruct (as_Signal v) as [tv|] eqn:Hv; simpl.
  - rewrite (as_Signal_as_int _ _ Hv).
    destruct (decide (tv = s)) as [->|Hne].
    + rewrite lookup_insert_eq. split; [by right; left|by eexists].
    + rewrite lookup_insert_ne by done.
      split; [by left|]. intros [?|[?|[[? [=]] _]]]; [done|congruence].
  - destruct (as_int v) as [n|]; simpl.
    + destruct (decide (s0 = s)) as [->|Hne].
      * rewrite lookup_insert_eq. split; [|by eexists].
        intros _. right. right. split; [by eexists|done].
      * rewrite lookup_insert_ne by done.
        split; [by left|]. intros [?|[?|[_ ?]]]; [done|done|congruence].
    + split; [by left|]. by intros [?|[?|[[? [=]] _]]].
Qed.

(** The keys of the resolved map: the listed signals, and possibly the
    nil signal. *)
Lemma Notify_loop_keys (signals : list value) (s : Signal) :
  (s ∈ listed signals → is_Some ((Notify_loop signals).2 !! s)) ∧
  (is_Some ((Notify_loop signals).2 !! s) →
   s = nilSignal ∨ s ∈ listed signals).
Proof.
  induction signals as [|v pre [IH1 IH2]] using rev_ind.
  - split; [by intros ?%not_elem_of_nil|]. by intros [? ?].
  - rewrite Notify_loop_snoc_keys, listed_snoc. split.
    + intros [?|?]; [left; auto|by right; left].
    + intros [?|[?|[_ ->]]].
      * destruct IH2 as [?|?]; auto.
      * by right; right.
      * destruct (last_signal_cases pre) as [?|?]; auto.
Qed.

Lemma Notify_loop_nonempty (signals : list value) :
  Exists (λ v, is_Some (as_Signal v) ∨ is_Some (as_int v)) signals →
  ∃ s, is_Some ((Notify_loop signals).2 !! s).
Proof.
  induction signals as [|v pre IH] using rev_ind;
    [by intros ?%Exists_nil|].
  intros [Hpre|Hv]%Exists_app.
  - destruct (IH Hpre) as [s Hs]. exists s.
    apply Notify_loop_snoc_keys. by left.
  - apply Exists_cons in Hv as [[[s Hs]|Hi]|?%Exists_nil]; [| |done].
    + exists s. apply Notify_loop_snoc_keys. by right; left.
    + exists (last_signal pre). apply Notify_loop_snoc_keys. by right; right.
Qed.

Lemma elem_of_signums (sigs : list Signal) (n : Z) :
  n ∈ signums sigs ↔ 0 ≤ n ∧ ∃ s, s ∈ sigs ∧ signum s = n.
Proof.
  unfold signums.
  rewrite elem_of_list_to_set, list_elem_of_filter, list_elem_of_fmap.
  split.
  - intros [Hn (s & -> & Hs)]. split; [done|]. by exists s.
  - intros [Hn (s & Hs & <-)]. split; [done|]. by exists s.
Qed.

Lemma signum_nonneg (s : Signal) (n : Z) :
  signum s = n → 0 ≤ n → s = sysSignal n ∧ 0 ≤ n < numSig.
Proof.
  destruct s as [|k|]; simpl; [lia| |lia].
  case_bool_decide; [|lia]. by intros ->.
Qed.

Lemma listed_VSys (signals : list value) (n : Z) :
  sysSignal n ∈ listed signals ↔ VSys n ∈ signals.
Proof.
  unfold listed. rewrite list_elem_of_omap. split.
  - intros (v & Hin & Hv). destruct v; simplify_eq/=. done.
  - intros Hin. by exists (VSys n).
Qed.

Section NotifyMore.
Context {H Ctx : Type}.
Implicit Types (st : pkg H) (ctx : Ctx).

(** X7: [Notify] with at least one signal or integer among its
    arguments asks os/signal for exactly the listed [syscall.Signal]
    values that have a valid number, on top of what is relayed already:
    integers, the package's own [noSig] and signals with a number out
    of range ask for nothing. *)
Theorem Notify_relays_listed_signals ctx (signals : list value) st (n : Z) :
  Exists (λ v, is_Some (as_Signal v) ∨ is_Some (as_int v)) signals →
  n ∈ relayed (Notify ctx signals st).1 ↔
  n ∈ relayed st ∨ (0 ≤ n < numSig ∧ VSys n ∈ signals).
Proof.
  intros Hex. destruct (Notify_loop_nonempty signals Hex) as [s0 Hs0].
  unfold Notify. simpl.
  rewrite Notify_sigs_nonempty by (intros ->; by apply Exists_nil in Hex).
  assert (∀ s, s ∈ elements (dom (Notify_loop signals).2) ↔
               is_Some ((Notify_loop signals).2 !! s)) as Hkeys.
  { intros s. by rewrite elem_of_elements, elem_of_dom. }
  destruct (elements (dom (Notify_loop signals).2)) as [|k ks] eqn:Hel.
  { apply Hkeys in Hs0. by apply not_elem_of_nil in Hs0. }
  simpl. rewrite elem_of_union, elem_of_signums.
  split; (intros [?|Hin]; [by left|right]).
  - destruct Hin as (Hn & s & Hs & Hsn).
    destruct (signum_nonneg _ _ Hsn Hn) as [-> ?]. split; [done|].
    apply Hkeys, Notify_loop_keys in Hs as [?|Hs]; [done|].
    by apply listed_VSys.
  - destruct Hin as [Hn Hin]. split; [lia|].
    exists (sysSignal n). split.
    + by apply Hkeys, Notify_loop_keys, listed_VSys.
    + simpl. by rewrite bool_decide_eq_true_2.
Qed.

Lemma Notify_loop_all_skipped (signals : list value) :
  Forall (λ v, as_Signal v = None ∧ as_int v = None) signals →
  Notify_loop signals = (nilSignal, ∅).
Proof.
  induction signals as [|v pre IH] using rev_ind; [done|].
  intros [Hpre Hv]%Forall_app. rewrite Forall_singleton in Hv.
  destruct Hv as [Hs Hi]. rewrite Notify_loop_snoc, IH by done.
  by apply Notify_entry_skip.
Qed.

(** X8: [Notify] with arguments of which none is a signal or an [int]
    (strings, [int64]s, nil): the resolved map is empty, not the default
    one; [signal.Notify] is called without signals, so every signal is
    relayed; and the listener drops whatever it receives - no signal
    gets to [handleOnce], none terminates the process any more. *)
Theorem Notify_without_signals_traps_everything
    ctx (signals : list value) st :
  signals ≠ [] →
  Forall (λ v, as_Signal v = None ∧ as_int v = None) signals →
  l_sigs (Notify ctx signals st).2 = ∅ ∧
  relayed (Notify ctx signals st).1 = all_signals ∧
  ∀ (st' : pkg H) (s : Signal),
    supplied st' (CallDeliver (Notify ctx signals st).2 s) = None.
Proof.
  intros Hne Hall. unfold Notify. simpl.
  rewrite Notify_sigs_nonempty, Notify_loop_all_skipped by done. simpl.
  split; [done|]. split; [by rewrite dom_empty_L, elements_empty|].
  intros st' s. by rewrite lookup_empty.
Qed.

(** X9: [Notify] without arguments uses the map that [init] sets on
    either platform: code 1 for SIGKILL, code 0 for SIGHUP, SIGINT,
    SIGQUIT and SIGTERM, and no other signal; and it asks os/signal for
    these five. *)
Theorem Notify_default_signals ctx st :
  (∀ s x, l_sigs (Notify ctx [] st).2 !! s = Some x ↔
     (s = SIGKILL ∧ x = 1) ∨
     (s ∈ [SIGHUP; SIGINT; SIGQUIT; SIGTERM] ∧ x = 0)) ∧
  relayed (Notify ctx [] st).1 = relayed st ∪ {[1; 2; 3; 9; 15]}.
Proof.
  split.
  - intros s x. unfold Notify. simpl. unfold defaultSignals.
    rewrite !elem_of_cons, !lookup_insert, lookup_empty.
    repeat case_decide; subst; try (split; [intros [= <-]; auto 8|]);
      try (intros [[? ?]|[[?|[?|[?|[?|?%not_elem_of_nil]]]] ?]];
           by simplify_eq);
      try (split; [done|]);
      intros [[? ?]|[[?|[?|[?|[?|?%not_elem_of_nil]]]] ?]]; by simplify_eq.
  - unfold Notify. simpl.
    destruct (elements (dom defaultSignals)) as [|k ks] eqn:Hel;
      [by vm_compute in Hel|].
    simpl. f_equal. rewrite <- Hel. by vm_compute.
Qed.

End NotifyMore.

(** ** More on the gate *)

Section GateMore.
Context {H Ctx : Type}.
Implicit Types (st : pkg H) (c : config H Ctx) (t : nat) (th : thread H Ctx).

Lemma current_call_elem th (cl : call Ctx) :
  current_call th = Some cl → cl ∈ t_prog th.
Proof.
  unfold current_call. destruct (t_ip th); [done|].
  apply list_elem_of_lookup_2.
Qed.

Lemma gate_inv_prog st (progs : list (list (call Ctx))) c t th :
  gate_inv st progs c → c_threads c !! t = Some th →
  progs !! t = Some (t_prog th) ∧ t_prog th ∈ progs.
Proof.
  intros (_ & <- & _) Hth.
  assert ((t_prog <$> c_threads c) !! t = Some (t_prog th)) as Hl
    by by rewrite list_lookup_fmap, Hth.
  split; [done|]. by eapply list_elem_of_lookup_2.
Qed.

(** Without a call that gets to [handleOnce], every goroutine is
    between two calls. *)
Lemma no_gate_call_idle st (progs : list (list (call Ctx))) c :
  (∀ prog cl, prog ∈ progs → cl ∈ prog → supplied st cl = None) →
  gate_inv st progs c →
  c_claims c = [] ∧ ∀ t th, c_threads c !! t = Some th → t_pc th = Idle.
Proof.
  intros Hnone Hinv.
  pose proof Hinv as (_ & _ & _ & _ & Hths & Hclaim).
  assert (∀ t th cl, c_threads c !! t = Some th →
            current_call th = Some cl → supplied st cl = None) as Hcur.
  { intros t th cl Hth Hcl. apply (Hnone (t_prog th)).
    - by apply (gate_inv_prog _ _ _ _ _ Hinv Hth).
    - by apply current_call_elem. }
  unfold claim_inv in Hclaim.
  destruct (c_claims c) as [|[[w s] x] [|? ?]]; [| |done].
  - split; [done|]. intros t th Hth.
    destruct Hclaim as (_ & _ & _ & Hno). specialize (Hno t th Hth).
    destruct (Hths t th Hth) as [_ Hframe].
    destruct (t_pc th) as [|ctx code|ctx s x fe|ctx s x fe|rest x];
      [done| | | |by destruct Hno].
    + by pose proof (Hcur _ _ _ Hth Hframe).
    + destruct Hframe as (cl & Hcl & Hsup).
      by rewrite (Hcur _ _ _ Hth Hcl) in Hsup.
    + destruct Hframe as (cl & Hcl & Hsup).
      by rewrite (Hcur _ _ _ Hth Hcl) in Hsup.
  - destruct Hclaim as (_ & (th & ctx & cl & rest & Hw & _ & Hcl & Hsup & _) & _).
    by rewrite (Hcur _ _ _ Hw Hcl) in Hsup.
Qed.

(** X10: if no call gets to [handleOnce] - the goroutines only handle
    signals that are not keys of their listener's map - then in every
    interleaving no handler is ever called, the process does not exit,
    [lock] stays free, and when nothing can move every call has
    returned. *)
Theorem no_gate_call_no_drain st (progs : list (list (call Ctx))) c :
  (∀ prog cl, prog ∈ progs → cl ∈ prog → supplied st cl = None) →
  rtc steps (config_init st progs) c →
  c_claims c = [] ∧ c_trace c = [] ∧ c_exited c = None ∧
  c_lock c = false ∧
  (stuck c → ∀ t th, c_threads c !! t = Some th →
     (length (t_prog th) ≤ returned_calls th)%nat).
Proof.
  intros Hnone Hinv%gate_inv_reachable.
  destruct (no_gate_call_idle _ _ _ Hnone Hinv) as [Hcl Hidle].
  pose proof Hinv as (_ & _ & _ & Hlock & _ & Hclaim).
  unfold claim_inv in Hclaim. rewrite Hcl in Hclaim.
  destruct Hclaim as (_ & Htr & Hex & _).
  split; [done|]. split; [done|]. split; [done|]. split.
  { destruct (c_lock c); [|done].
    destruct Hlock as (t & th & Hth & Hni); [done|].
    by destruct Hni; eapply Hidle. }
  intros Hstuck t th Hth. specialize (Hstuck t). unfold step in Hstuck.
  rewrite Hex, Hth in Hstuck. simpl in Hstuck.
  unfold returned_calls. rewrite (Hidle t th Hth) in *.
  destruct (t_prog th !! t_ip th) as [[ctx code|l s]|] eqn:Hnext.
  - assert (supplied st (CallExit ctx code) = None) as Hs; [|done].
    apply (Hnone (t_prog th)).
    + by apply (gate_inv_prog _ _ _ _ _ Hinv Hth).
    + by eapply list_elem_of_lookup_2.
  - by destruct (l_sigs l !! s).
  - by apply lookup_ge_None.
Qed.

Lemma handle_invocation (ctx : Ctx) s st (i : invocation H Ctx) :
  i ∈ handle ctx s st → inv_ctx i = ctx ∧ inv_signal i = s.
Proof.
  unfold handle. rewrite handle_with_drain_with.
  by intros (x & -> & _)%list_elem_of_fmap.
Qed.

(** X11: every handler call of a run gets the context and the signal of
    the one call that entered the function of [once.Do].  If that call
    is an [Exit], [IsNormalExit] is true of the signal in every handler;
    if it is the handling of a [syscall.Signal], it is false in every
    handler. *)
Theorem handlers_get_signal_of_entering_call
    st (progs : list (list (call Ctx))) c (i : invocation H Ctx) :
  rtc steps (config_init st progs) c → i ∈ c_trace c →
  ∃ w s x prog cl ctx,
    c_claims c = [(w, s, x)] ∧ progs !! w = Some prog ∧ cl ∈ prog ∧
    supplied st cl = Some (ctx, s, x) ∧
    inv_ctx i = ctx ∧ inv_signal i = s ∧
    (is_CallExit cl = true → IsNormalExit (inv_signal i) = true) ∧
    (∀ l n, cl = CallDeliver l (sysSignal n) →
            IsNormalExit (inv_signal i) = false).
Proof.
  intros Hinv%gate_inv_reachable Hi.
  pose proof (gate_inv_claims _ _ _ Hinv) as Hlen.
  pose proof Hinv as (_ & _ & _ & _ & _ & Hclaim). unfold claim_inv in Hclaim.
  destruct (c_claims c) as [|[[w s] x] [|? ?]] eqn:Hcl; [| |done].
  { destruct Hclaim as (_ & Htr & _). rewrite Htr in Hi.
    by apply not_elem_of_nil in Hi. }
  destruct (gate_inv_winner _ _ _ _ _ _ Hinv Hcl)
    as (prog & cl & ctx & Hw & Hin & Hsup & [rest Hpre] & _).
  assert (i ∈ handle ctx s st) as Hih
    by (rewrite Hpre; apply elem_of_app; by left).
  destruct (handle_invocation _ _ _ _ Hih) as [Hc Hs].
  exists w, s, x, prog, cl, ctx. do 6 (split; [done|]). split.
  - rewrite Hs. destruct cl; [|done]. intros _. simpl in Hsup.
    by injection Hsup as _ <- _.
  - intros l n ->. simpl in Hsup. rewrite Hs.
    destruct (l_sigs l !! sysSignal n); [|done].
    by injection Hsup as _ <- _.
Qed.

(** X12: a call that gets to [handleOnce] - every [Exit], and the
    handling of a signal of the map - never returns to its caller, in no
    interleaving: at any time it is among the calls of its goroutine
    that have not returned. *)
Theorem gate_call_never_returns
    st (progs : list (list (call Ctx))) c t th (k : nat) (cl : call Ctx) :
  rtc steps (config_init st progs) c →
  c_threads c !! t = Some th → t_prog th !! k = Some cl →
  is_Some (supplied st cl) →
  progs !! t = Some (t_prog th) ∧ (returned_calls th ≤ k)%nat.
Proof.
  intros Hinv%gate_inv_reachable Hth Hk Hsup.
  split; [by apply (gate_inv_prog _ _ _ _ _ Hinv Hth)|].
  destruct Hinv as (_ & _ & _ & _ & Hths & _).
  destruct (Hths t th Hth) as [Hret _].
  destruct (decide (k < returned_calls th)%nat) as [Hlt|?]; [|lia].
  rewrite (Hret _ _ Hlt Hk) in Hsup. by destruct Hsup.
Qed.

(** X13: the listener on its own, handling a signal that is a key of
    its map, run until it cannot move: the handlers were called with
    that signal and the listener's context, and the process has exited
    with the code the map gives for the signal. *)
Theorem signal_exit_status st (l : listener Ctx) (s : Signal) (x : Z) (n : nat) :
  l_sigs l !! s = Some x →
  (fuel (config_init st [[CallDeliver l s]]) ≤ n)%nat →
  let c := run (replicate n 0%nat) (config_init st [[CallDeliver l s]]) in
  c_exited c = Some x ∧ c_trace c = handle (l_ctx l) s st.
Proof.
  intros Hx Hn c.
  pose proof (gate_inv_init st [[CallDeliver l s]]) as Hinit.
  pose proof (run_single_stuck _ _ _ _ Hinit Hn) as Hstuck. fold c in Hstuck.
  pose proof (gate_inv_rtc _ _ _ _ Hinit (run_rtc (replicate n 0%nat) _))
    as Hinv. fold c in Hinv.
  destruct (stuck_claimed _ _ _ Hinv Hstuck) as (w & s' & x' & Hcl & Hex).
  { exists [CallDeliver l s], (CallDeliver l s).
    repeat split; [apply list_elem_of_here..|]. simpl. rewrite Hx.
    by eexists. }
  destruct (gate_inv_winner _ _ _ _ _ _ Hinv Hcl)
    as (prog & cl & ctx' & Hw & Hin & Hsup & _ & Htr).
  destruct (Htr _ Hex) as [_ ->].
  destruct w as [|w]; [|by destruct w]. simpl in Hw. simplify_eq.
  apply list_elem_of_singleton in Hin as ->. simpl in Hsup.
  rewrite Hx in Hsup. simpl in Hsup. by simplify_eq.
Qed.

Lemma exited_trace st (progs : list (list (call Ctx))) c :
  gate_inv st progs c → is_Some (c_exited c) →
  inv_handler <$> c_trace c = (drain_with (go_keys (handlers st)) st).*1.
Proof.
  intros Hinv [x' Hex].
  pose proof Hinv as (_ & _ & _ & _ & _ & Hclaim). unfold claim_inv in Hclaim.
  destruct (c_claims c) as [|[[w s] x] [|? ?]] eqn:Hcl; [| |done].
  { destruct Hclaim as (_ & _ & ? & _). congruence. }
  destruct (gate_inv_winner _ _ _ _ _ _ Hinv Hcl)
    as (prog & cl & ctx & _ & _ & _ & _ & Htr).
  destruct (Htr _ Hex) as [_ ->]. unfold handle.
  rewrite handle_with_drain_with, <- list_fmap_compose.
  by apply list_fmap_ext.
Qed.

(** X14: which goroutine gets into the function of [once.Do], with
    which signal, does not matter to the handlers: two runs over the
    same registry that have exited - whatever their goroutines, their
    calls and their schedules - have called the same handlers in the
    same order. *)
Theorem drain_order_schedule_independent
    st (progs1 progs2 : list (list (call Ctx))) c1 c2 :
  rtc steps (config_init st progs1) c1 →
  rtc steps (config_init st progs2) c2 →
  is_Some (c_exited c1) → is_Some (c_exited c2) →
  inv_handler <$> c_trace c1 = inv_handler <$> c_trace c2.
Proof.
  intros H1%gate_inv_reachable H2%gate_inv_reachable Hex1 Hex2.
  by rewrite (exited_trace _ _ _ H1 Hex1), (exited_trace _ _ _ H2 Hex2).
Qed.

End GateMore.

(** ** The mutex of Exit *)

Section Lock.
Context {H Ctx : Type}.
Implicit Types (st : pkg H) (c : config H Ctx) (t : nat) (th : thread H Ctx).

Lemma lock_inv_init st (progs : list (list (call Ctx))) :
  lock_inv (config_init st progs).
Proof.
  unfold lock_inv, config_init. simpl. split; [|split].
  - split; [done|].
    by intros (t & th & (prog & -> & _)%list_lookup_fmap_Some & ?).
  - by intros t1 t2 th1 th2 (prog & -> & _)%list_lookup_fmap_Some.
  - by intros t th (prog & -> & _)%list_lookup_fmap_Some.
Qed.

(** A step of a goroutine that neither enters nor leaves [Exit]. *)
Lemma lock_inv_same t th th' c c' :
  lock_inv c → c_threads c !! t = Some th →
  c_threads c' = <[t := th']> (c_threads c) → c_lock c' = c_lock c →
  in_Exit th' = in_Exit th → frame_knows_caller th' →
  lock_inv c'.
Proof.
  intros (Hlock & Huniq & Hframe) Hth Eths El Ein Hf'.
  pose proof (lookup_lt_Some _ _ _ Hth) as Hlt.
  assert (∀ t0 th0', c_threads c' !! t0 = Some th0' →
            ∃ th0, c_threads c !! t0 = Some th0 ∧ in_Exit th0 = in_Exit th0' ∧
                   (t0 ≠ t → th0 = th0')) as Hback.
  { intros t0 th0'. rewrite Eths.
    intros [[-> ->]|[? ?]]%insert_lookup_cases.
    - exists th. split; [done|]. split; [done|]. by intros [].
    - exists th0'. by split. }
  unfold lock_inv. rewrite El. split; [|split].
  - rewrite Hlock. split.
    + intros (t0 & th0 & Hth0 & Hin). destruct (decide (t0 = t)) as [->|Hne].
      * exists t, th'. rewrite Eths, list_lookup_insert_eq by done.
        split; [done|]. rewrite Hth in Hth0. simplify_eq. congruence.
      * exists t0, th0. by rewrite Eths, list_lookup_insert_ne.
    + intros (t0 & th0' & Hth0' & Hin).
      destruct (Hback _ _ Hth0') as (th0 & Hth0 & Heq & _).
      exists t0, th0. split; [done|congruence].
  - intros t1 t2 th1' th2' H1 H2 Hin1 Hin2.
    destruct (Hback _ _ H1) as (th1 & Hth1 & Heq1 & _).
    destruct (Hback _ _ H2) as (th2 & Hth2 & Heq2 & _).
    apply (Huniq t1 t2 th1 th2); congruence.
  - intros t0 th0' Hth0'. fold (frame_knows_caller th0').
    destruct (decide (t0 = t)) as [->|Hne].
    + rewrite Eths, list_lookup_insert_eq in Hth0' by done. by simplify_eq.
    + destruct (Hback _ _ Hth0') as (th0 & Hth0 & _ & Heq).
      rewrite <- (Heq Hne). by apply (Hframe t0).
Qed.

(** The step that takes [lock]. *)
Lemma lock_inv_acquire t th th' c c' :
  lock_inv c → c_threads c !! t = Some th →
  c_threads c' = <[t := th']> (c_threads c) →
  c_lock c = false → c_lock c' = true →
  in_Exit th' = true → frame_knows_caller th' →
  lock_inv c'.
Proof.
  intros (Hlock & Huniq & Hframe) Hth Eths El El' Hin' Hf'.
  pose proof (lookup_lt_Some _ _ _ Hth) as Hlt.
  assert (∀ t0 th0, c_threads c !! t0 = Some th0 → in_Exit th0 = false)
    as Hnone.
  { intros t0 th0 Hth0. destruct (in_Exit th0) eqn:Hin; [|done].
    rewrite El in Hlock. destruct Hlock as [_ Hl].
    by discriminate Hl; eauto. }
  assert (∀ t0 th0', c_threads c' !! t0 = Some th0' →
            in_Exit th0' = true → t0 = t) as Honly.
  { intros t0 th0'. rewrite Eths.
    intros [[-> ->]|[? Hth0]]%insert_lookup_cases; [done|].
    rewrite (Hnone _ _ Hth0). done. }
  unfold lock_inv. rewrite El'. split; [|split].
  - split; [|done]. intros _. exists t, th'.
    by rewrite Eths, list_lookup_insert_eq.
  - intros t1 t2 th1 th2 H1 H2 Hin1 Hin2.
    by rewrite (Honly _ _ H1 Hin1), (Honly _ _ H2 Hin2).
  - intros t0 th0'. rewrite Eths.
    intros [[-> ->]|[? Hth0]]%insert_lookup_cases; [done|].
    by apply (Hframe t0).
Qed.

Lemma lock_inv_step st (progs : list (list (call Ctx))) t c c' :
  gate_inv st progs c → lock_inv c → step t c = Some c' → lock_inv c'.
Proof.
  intros (_ & _ & Hdone & _ & Hths & _) Hlinv. unfold step. intros Hstep.
  destruct (c_exited c); [done|].
  destruct (c_threads c !! t) as [th|] eqn:Hth; simpl in Hstep; [|done].
  destruct (Hths t th Hth) as [_ Hthinv].
  pose proof Hlinv as (_ & _ & Hframe). specialize (Hframe t th Hth).
  rewrite Hdone in Hstep.
  destruct (t_pc th) as [|ctx code|ctx s x fe|ctx s x fe|[|i rest] x] eqn:Hpc.
  - destruct (t_prog th !! t_ip th) as [[ctx code|l s]|] eqn:Hcl; [| |done].
    + destruct (c_lock c) eqn:Hl; simplify_eq.
      by eapply (lock_inv_acquire t th (begin_call th (ExitLocked ctx code))).
    + destruct (l_sigs l !! s) as [x|]; simplify_eq.
      * eapply (lock_inv_same t th
                  (begin_call th (OnceEnter (l_ctx l) s x false))); try done.
        -- unfold in_Exit. by rewrite Hpc.
        -- unfold frame_knows_caller, current_call. simpl. by eexists.
      * eapply (lock_inv_same t th (begin_call th Idle)); try done.
        unfold in_Exit. by rewrite Hpc.
  - simplify_eq.
    eapply (lock_inv_same t th (set_pc th (OnceEnter ctx noSigVal
              (if bool_decide (code < 0) then ExitCode (c_pkg c) else code)
              true))); try done.
    + unfold in_Exit. by rewrite Hpc.
    + unfold frame_knows_caller. simpl. by eexists.
  - simplify_eq.
    eapply (lock_inv_same t th (set_pc th (OnceSlow ctx s x fe))); try done.
    unfold in_Exit. by rewrite Hpc.
  - destruct (c_once_m c); [done|]. simplify_eq.
    eapply (lock_inv_same t th
              (set_pc th (InHandle (handle ctx s (c_pkg c)) x))); try done.
    destruct Hframe as (cl & Hcur & ->).
    unfold in_Exit. rewrite Hpc. simpl.
    change (current_call (set_pc th _)) with (current_call th).
    by rewrite Hcur.
  - simplify_eq. done.
  - simplify_eq.
    eapply (lock_inv_same t th (set_pc th (InHandle rest x))); try done.
    unfold in_Exit. by rewrite Hpc.
Qed.

Lemma lock_inv_reachable st (progs : list (list (call Ctx))) c :
  rtc steps (config_init st progs) c → lock_inv c.
Proof.
  intros Hrtc.
  assert (gate_inv st progs c ∧ lock_inv c) as [_ ?]; [|done].
  revert c Hrtc.
  apply (rtc_ind_r (λ c, gate_inv st progs c ∧ lock_inv c)).
  - split; [apply gate_inv_init|apply lock_inv_init].
  - intros c1 c2 _ [t Hstep] [Hg Hl].
    split; [by eapply gate_inv_step|by eapply lock_inv_step].
Qed.


End Lock.

(** ** The further properties on concrete runs *)

(** A second handler at priority 0 of the README's registry. *)
Lemma RegisterWithPriority_appends_witness :
  handlers Scenario.registry = Some (<[0 := ["H1"; "H2"]]> {[ -1 := ["H0"] ]}) ∧
  ∃ st', RegisterWithPriority "H3" 0 Scenario.registry = Ok st' ∧
    go_index (handlers st') 0 = Some (["H1"; "H2"] ++ ["H3"]) ∧
    go_index (handlers st') (-1) = Some ["H0"].
Proof.
  assert (handlers Scenario.registry =
            Some (<[0 := ["H1"; "H2"]]> {[ -1 := ["H0"] ]})) as Hm
    by (vm_compute; reflexivity).
  split; [exact Hm|].
  destruct (RegisterWithPriority_appends "H3" 0 Scenario.registry _ Hm)
    as (st' & Hreg & Hp & Hq & _).
  exists st'. split; [exact Hreg|]. split; [exact Hp|].
  rewrite (Hq (-1)) by done. reflexivity.
Defined.

Lemma register_all_keys_witness :
  handlers (pkg_init (H:=string)) = Some ∅ ∧
  ∃ st', register_all [("H1", 0); ("H2", 0); ("H0", -1)] pkg_init = Ok st' ∧
    NoDup (go_keys (handlers st')) ∧
    (∀ p, p ∈ go_keys (handlers st') ↔ p ∈ [("H1", 0); ("H2", 0); ("H0", -1)].*2) ∧
    (∀ p, go_index (handlers st') p ≠ Some []).
Proof.
  split; [reflexivity|].
  apply (register_all_keys [("H1", 0); ("H2", 0); ("H0", -1)] pkg_init).
  reflexivity.
Defined.

Lemma handle_after_more_registrations_witness :
  handlers Scenario.registry = Some (<[0 := ["H1"; "H2"]]> {[ -1 := ["H0"] ]}) ∧
  ∃ st', register_all [("H3", -1); ("H4", 5)] Scenario.registry = Ok st' ∧
    ∀ ks, range_order (handlers st') ks →
    ∃ called : list (string * Z),
      handle_with ks () noSigVal st' = (λ x, Invoke x.1 () noSigVal) <$> called ∧
      StronglySorted Z.le called.*2 ∧
      ∀ p, (filter (λ x, x.2 = p) called).*1 =
           default [] ((<[0 := ["H1"; "H2"]]> {[ -1 := ["H0"] ]} : gmap Z (list string)) !! p)
           ++ (filter (λ x, x.2 = p) [("H3", -1); ("H4", 5)]).*1.
Proof.
  assert (handlers Scenario.registry =
            Some (<[0 := ["H1"; "H2"]]> {[ -1 := ["H0"] ]})) as Hm
    by (vm_compute; reflexivity).
  split; [exact Hm|].
  exact (handle_after_more_registrations [("H3", -1); ("H4", 5)]
           Scenario.registry _ unit () noSigVal Hm).
Defined.

Lemma handle_range_order_irrelevant_witness :
  range_order (handlers Scenario.registry) [0; -1] ∧
  range_order (handlers Scenario.registry) [-1; 0] ∧
  handle_with [0; -1] () noSigVal Scenario.registry =
  handle_with [-1; 0] () noSigVal Scenario.registry.
Proof.
  assert (range_order (handlers Scenario.registry) [0; -1]) as H1.
  { unfold range_order. vm_compute. first [reflexivity | apply perm_swap]. }
  assert (range_order (handlers Scenario.registry) [-1; 0]) as H2.
  { unfold range_order. vm_compute. first [reflexivity | apply perm_swap]. }
  split; [exact H1|]. split; [exact H2|].
  exact (handle_range_order_irrelevant _ _ unit () noSigVal _ H1 H2).
Defined.

Lemma no_registration_after_Reset_witness :
  Exists is_registration [OpNotify () []; OpRegister (Ctx:=()) "H2"] ∧
  ∃ msg, apply_ops ([OpRegister "H1"] ++ OpReset ::
                    [OpNotify () []; OpRegister "H2"]) pkg_init = Panic msg.
Proof.
  assert (Exists is_registration [OpNotify () []; OpRegister (Ctx:=()) "H2"])
    as Hex by (right; left; exact I).
  split; [exact Hex|].
  exact (no_registration_after_Reset [OpRegister "H1"] _ pkg_init Hex).
Defined.

Lemma Reset_relays_nothing_witness :
  notified (pkg_init (H:=string)) = [] ∧
  ∃ st', apply_ops [OpNotify () [VSys 1]; OpNotify () [VSys 2];
                    OpRegister "H1"] pkg_init = Ok st' ∧
    relayed st' = {[1; 2]} ∧ notified st' = [] ∧ relayed (Reset st') = ∅.
Proof.
  split; [reflexivity|]. eexists. split; [reflexivity|].
  split; [by vm_compute|].
  exact (Reset_relays_nothing
           [OpNotify () [VSys 1]; OpNotify () [VSys 2]; OpRegister "H1"]
           pkg_init _ eq_refl eq_refl).
Defined.

Lemma Notify_relays_listed_signals_witness :
  Exists (λ v, is_Some (as_Signal v) ∨ is_Some (as_int v))
    [VSys 2; VInt 1; VSys 99] ∧
  (2 ∈ relayed (Notify () [VSys 2; VInt 1; VSys 99] (pkg_init (H:=string))).1 ↔
   2 ∈ relayed (pkg_init (H:=string)) ∨
   (0 ≤ 2 < numSig ∧ VSys 2 ∈ [VSys 2; VInt 1; VSys 99])).
Proof.
  assert (Exists (λ v, is_Some (as_Signal v) ∨ is_Some (as_int v))
            [VSys 2; VInt 1; VSys 99]) as Hex
    by (left; left; by eexists).
  split; [exact Hex|].
  exact (Notify_relays_listed_signals () _ pkg_init 2 Hex).
Defined.

Lemma Notify_without_signals_traps_everything_witness :
  [VOther "SIGINT"] ≠ [] ∧
  Forall (λ v, as_Signal v = None ∧ as_int v = None) [VOther "SIGINT"] ∧
  l_sigs (Notify () [VOther "SIGINT"] (pkg_init (H:=string))).2 = ∅ ∧
  relayed (Notify () [VOther "SIGINT"] (pkg_init (H:=string))).1 = all_signals.
Proof.
  assert (Forall (λ v, as_Signal v = None ∧ as_int v = None)
            [VOther "SIGINT"]) as Hall by (by repeat constructor).
  split; [done|]. split; [exact Hall|].
  destruct (Notify_without_signals_traps_everything () [VOther "SIGINT"]
              (pkg_init (H:=string)) ltac:(done) Hall) as (H1 & H2 & _).
  by split.
Defined.

(** A listener for SIGINT that receives SIGTERM twice. *)
Lemma no_gate_call_no_drain_witness :
  let progs := [[CallDeliver Scenario.sigint_listener SIGTERM;
                 CallDeliver Scenario.sigint_listener SIGTERM]] in
  let c := run [0; 0; 0]%nat (config_init Scenario.registry progs) in
  (∀ prog cl, prog ∈ progs → cl ∈ prog →
     supplied Scenario.registry cl = None) ∧
  rtc steps (config_init Scenario.registry progs) c ∧
  c_claims c = [] ∧ c_trace c = [] ∧ c_exited c = None ∧ c_lock c = false.
Proof.
  intros progs c.
  assert (∀ prog cl, prog ∈ progs → cl ∈ prog →
            supplied Scenario.registry cl = None) as Hnone.
  { intros prog cl ->%list_elem_of_singleton Hcl.
    apply elem_of_cons in Hcl as [->|Hcl]; [reflexivity|].
    apply list_elem_of_singleton in Hcl as ->. reflexivity. }
  assert (rtc steps (config_init Scenario.registry progs) c) as Hrtc
    by apply run_rtc.
  split; [exact Hnone|]. split; [exact Hrtc|].
  destruct (no_gate_call_no_drain Scenario.registry progs c Hnone Hrtc)
    as (H1 & H2 & H3 & H4 & _).
  by repeat split.
Defined.

Lemma handlers_get_signal_of_entering_call_witness :
  let progs := [[CallExit () 0]; [CallDeliver Scenario.sigint_listener SIGINT]] in
  let c := run [1; 1; 1; 1; 0; 1]%nat Scenario.exit_and_signal in
  rtc steps Scenario.exit_and_signal c ∧
  Invoke "H0" () SIGINT ∈ c_trace c ∧
  ∃ w s x prog cl ctx,
    c_claims c = [(w, s, x)] ∧ progs !! w = Some prog ∧ cl ∈ prog ∧
    supplied Scenario.registry cl = Some (ctx, s, x) ∧
    inv_signal (Invoke (Ctx:=()) "H0" () SIGINT) = s.
Proof.
  intros progs c.
  assert (rtc steps Scenario.exit_and_signal c) as Hrtc by apply run_rtc.
  assert (Invoke "H0" () SIGINT ∈ c_trace c) as Hin by (vm_compute; left).
  split; [exact Hrtc|]. split; [exact Hin|].
  destruct (handlers_get_signal_of_entering_call Scenario.registry progs c
              _ Hrtc Hin)
    as (w & s & x & prog & cl & ctx & H1 & H2 & H3 & H4 & _ & H6 & _).
  exists w, s, x, prog, cl, ctx.
  split; [exact H1|]. split; [exact H2|]. split; [exact H3|].
  split; [exact H4|exact H6].
Defined.

Lemma gate_call_never_returns_witness :
  rtc steps Scenario.two_exits Scenario.claimed ∧
  ∃ th, c_threads Scenario.claimed !! 0%nat = Some th ∧
    t_prog th !! 0%nat = Some (CallExit () 3) ∧
    (returned_calls th ≤ 0)%nat.
Proof.
  assert (rtc steps Scenario.two_exits Scenario.claimed) as Hrtc
    by apply run_rtc.
  split; [exact Hrtc|].
  destruct (c_threads Scenario.claimed !! 0%nat) as [th|] eqn:Hth;
    [|by vm_compute in Hth].
  exists th. split; [reflexivity|].
  assert (t_prog th !! 0%nat = Some (CallExit () 3)) as Hk
    by (vm_compute in Hth; by simplify_eq).
  split; [exact Hk|].
  exact (proj2 (gate_call_never_returns Scenario.registry
                  [[CallExit () 3]; [CallExit () 7]] Scenario.claimed
                  0 th 0 (CallExit () 3) Hrtc Hth Hk
                  (mk_is_Some _ _ eq_refl))).
Defined.

(** SIGINT with code 1, handled by the listener on its own. *)
Lemma signal_exit_status_witness :
  l_sigs Scenario.sigint_listener !! SIGINT = Some 1 ∧
  (fuel (config_init Scenario.registry
           [[CallDeliver Scenario.sigint_listener SIGINT]]) ≤ 10)%nat ∧
  c_exited (run (replicate 10 0%nat)
              (config_init Scenario.registry
                 [[CallDeliver Scenario.sigint_listener SIGINT]])) = Some 1.
Proof.
  assert (l_sigs Scenario.sigint_listener !! SIGINT = Some 1) as Hx
    by reflexivity.
  assert (fuel (config_init Scenario.registry
                  [[CallDeliver Scenario.sigint_listener SIGINT]]) ≤ 10)%nat
    as Hfuel by (vm_compute; lia).
  split; [exact Hx|]. split; [exact Hfuel|].
  exact (proj1 (signal_exit_status Scenario.registry _ _ _ 10 Hx Hfuel)).
Defined.

(** Two calls of [Exit] in one run, an [Exit] and a SIGINT in the
    other. *)
Lemma drain_order_schedule_independent_witness :
  let c1 := run (Scenario.round_robin 10) Scenario.two_exits in
  let c2 := run [1; 1; 1; 1; 0; 1; 1; 1; 1]%nat Scenario.exit_and_signal in
  is_Some (c_exited c1) ∧ is_Some (c_exited c2) ∧
  inv_handler <$> c_trace c1 = inv_handler <$> c_trace c2.
Proof.
  intros c1 c2.
  assert (is_Some (c_exited c1)) as H1 by (exists 3; by vm_compute).
  assert (is_Some (c_exited c2)) as H2 by (exists 1; by vm_compute).
  split; [exact H1|]. split; [exact H2|].
  exact (drain_order_schedule_independent Scenario.registry
           [[CallExit () 3]; [CallExit () 7]]
           [[CallExit () 0]; [CallDeliver Scenario.sigint_listener SIGINT]]
           c1 c2 (run_rtc _ _) (run_rtc _ _) H1 H2).
Defined.

